(** * msdatabase: the Google Drive handler

    A shallow embedding of [src/msdatabase/google_drive_handler.py]
    (class [GoogleDriveHandler]) and the properties of its synchronisation
    core: size formatting, quota reporting, paginated listing, name-based
    deduplication, and the upload / download / delete operations.

    Conventions.
    - A Python call either returns a value or raises: [exn + A], with
      [inl e] for "raises e" and [inr v] for "returns v".
    - Methods that talk to the Drive service or the local disk run in the
      monad [M A := World -> (exn + A) * World]; the effects a call had
      before it raised stay in the world.
    - A [string] stands for a Python [str] whose code points are below 256,
      one character per code point.  On these [int_of_str] is [int]: the
      blanks it strips and the digits it reads are those CPython takes
      there, and the cap of 4300 digits that CPython 3.11 puts on the
      conversions between [int] and [str] is kept.  A [str] with a larger
      code point is outside the model ([int] also reads the decimal digits
      and the blanks of other scripts).
    - The store answers list requests from a finite script, so every
      enumeration ends; a store that issues tokens for ever is not
      represented.
    - Logging is left out, but for the progress line of [download_pdf],
      the one place where the handler shows the downloader's status.
    - [except Exception] catches every exception of the model;
      [KeyboardInterrupt] and the like are not represented. *)

From Stdlib Require Import ZArith Lia Ascii String.
From stdpp Require Import gmap strings list pretty.

Local Open Scope Z_scope.

(** ** Python values and exceptions *)

(** The exception classes the handler can meet.  All of them derive from
    [Exception]; [FileNotFoundError] is an [OSError]. *)
Inductive exn : Type :=
  | HttpError
  | ValueError
  | TypeError
  | OverflowError
  | AttributeError
  | OSError
  | TimeoutError
  | StopIteration.

(** The classes named in the handler's [except] clauses. *)
Inductive exn_class : Type :=
  | Exception_
  | HttpError_
  | ValueError_.

Definition isinstance (e : exn) (c : exn_class) : bool :=
  match c, e with
  | Exception_, _ => true
  | HttpError_, HttpError => true
  | ValueError_, ValueError => true
  | _, _ => false
  end.

(** The values that reach the handler from a JSON response or from a caller:
    [None], booleans, integers and strings. *)
Inductive pyval : Type :=
  | VNone
  | VBool (b : bool)
  | VInt (z : Z)
  | VStr (s : string).

(** [v == s] for a string literal [s]. *)
Definition eq_str (v : pyval) (s : string) : bool :=
  match v with
  | VStr t => bool_decide (t = s)
  | _ => false
  end.

(** ** The error monad of pure code *)

Definition ebind {A B : Type} (m : exn + A) (k : A -> exn + B) : exn + B :=
  match m with
  | inl e => inl e
  | inr a => k a
  end.

(** [try: m  except c: h] *)
Definition etry {A : Type} (m : exn + A) (c : exn_class) (h : exn -> exn + A)
  : exn + A :=
  match m with
  | inl e => if isinstance e c then h e else inl e
  | inr a => inr a
  end.

Notation "'let?' x ':=' m 'in' k" := (ebind m (fun x => k))
  (at level 10, x name, m at level 100, k at level 200).

(** ** Built-ins used by the size formatter *)

Module Builtins.

(** [int(s)] for a string: optional surrounding blanks, an optional sign,
    then decimal digits, single underscores allowed between digits.  The
    blanks are tab to carriage return and the space, and, past ASCII, the
    next-line and no-break-space characters, which [int] turns into spaces
    before it strips; the separators 28 to 31 are not taken off. *)
Definition is_space (c : ascii) : bool :=
  let n := Z.of_nat (nat_of_ascii c) in
  ((9 <=? n) && (n <=? 13)) || (n =? 32) || (n =? 133) || (n =? 160).

Definition digit_of (c : ascii) : option Z :=
  let n := Z.of_nat (nat_of_ascii c) in
  if (48 <=? n) && (n <=? 57) then Some (n - 48) else None.

Fixpoint lstrip (l : list ascii) : list ascii :=
  match l with
  | c :: r => if is_space c then lstrip r else l
  | [] => []
  end.

Definition strip (l : list ascii) : list ascii :=
  rev (lstrip (rev (lstrip l))).

(** [after_digit] tells whether the previous character was a digit: an
    underscore is accepted only there, and the literal must end on a digit. *)
Fixpoint digits_value (acc : Z) (after_digit : bool) (l : list ascii)
  : option Z :=
  match l with
  | [] => if after_digit then Some acc else None
  | c :: r =>
      match digit_of c with
      | Some d => digits_value (10 * acc + d) true r
      | None =>
          if bool_decide (c = "_"%char) && after_digit
          then digits_value acc false r
          else None
      end
  end.

(** [sys.get_int_max_str_digits()], as CPython sets it. *)
Definition max_str_digits : Z := 4300.

(** The number of digits of a literal, sign and underscores apart. *)
Definition count_digits (l : list ascii) : Z :=
  Z.of_nat (length (filter (fun c => is_Some (digit_of c)) l)).

(** The value of an unsigned literal; one of more than [max_str_digits]
    digits is refused, leading zeros counted. *)
Definition literal_value (l : list ascii) : option Z :=
  if max_str_digits <? count_digits l then None else digits_value 0 false l.

Definition int_of_str (s : string) : option Z :=
  match strip (list_ascii_of_string s) with
  | "+"%char :: r => literal_value r
  | "-"%char :: r => Z.opp <$> literal_value r
  | l => literal_value l
  end.

(** [str(z)], which [f"{z}"] calls: [ValueError] for an integer of more than
    [max_str_digits] digits. *)
Definition str_ (z : Z) : exn + string :=
  if 10 ^ max_str_digits <=? Z.abs z then inl ValueError else inr (pretty z).

(** [int(v)] *)
Definition int_ (v : pyval) : exn + Z :=
  match v with
  | VInt z => inr z
  | VBool b => inr (if b then 1 else 0)
  | VStr s => match int_of_str s with Some z => inr z | None => inl ValueError end
  | VNone => inl TypeError
  end.

(** A finite non-negative binary64 value, [mant * 2 ^ expo]. *)
Record float : Type := Float { mant : Z; expo : Z }.

(** Nearest integer to [n / d], ties to the even one ([0 <= n], [0 < d]). *)
Definition round_half_even (n d : Z) : Z :=
  let q := n / d in
  let r := n mod d in
  if (d <? 2 * r) || ((2 * r =? d) && Z.odd q) then q + 1 else q.

(** [a / 2 ** k] for integers [0 <= a], [0 <= k]: the quotient correctly
    rounded to 53 significant bits (ties to even), [OverflowError] when the
    rounded quotient reaches [2 ** 1024].  Dividing by a power of two only
    moves the exponent, so the rounding acts on [a] itself; [sh] counts the
    bits of [a] beyond the 53 a significand holds.  The handler divides by
    [1024], [1024 * 1024] and [1024 * 1024 * 1024], numerators at least as
    large as the divisor, so no quotient is subnormal. *)
Definition true_div_pow2 (a k : Z) : exn + float :=
  let sh := Z.max 0 (Z.log2 a + 1 - 53) in
  let m := round_half_even a (2 ^ sh) in
  if 1024 <=? Z.log2 m + sh - k
  then inl OverflowError
  else inr (Float m (sh - k)).

(** The value of [x] in hundredths, rounded to the nearest integer, ties to
    even: the digits [format(x, '.2f')] prints. *)
Definition hundredths (x : float) : Z :=
  if 0 <=? expo x
  then 100 * mant x * 2 ^ expo x
  else round_half_even (100 * mant x) (2 ^ (- expo x)).

(** [h] hundredths written with two decimals. *)
Definition fixed2 (h : Z) : string :=
  pretty (h / 100) +:+ "." +:+ pretty (h mod 100 / 10) +:+ pretty (h mod 10).

(** [f"{x:.2f}"] *)
Definition format_2f (x : float) : string :=
  fixed2 (hundredths x).

End Builtins.

Import Builtins.

(** ** Size formatter: [convert_bytes] *)

Definition convert_bytes (bytes_size : pyval) : exn + string :=
  if eq_str bytes_size "N/A" then inr "N/A"
  else
    etry
      (let? bytes_size := int_ bytes_size in
       if bytes_size <? 1024 then
         let? digits := str_ bytes_size in
         inr (digits +:+ " bytes")
       else if bytes_size <? 1024 * 1024 then
         let? x := true_div_pow2 bytes_size 10 in
         inr (format_2f x +:+ " KB")
       else if bytes_size <? 1024 * 1024 * 1024 then
         let? x := true_div_pow2 bytes_size 20 in
         inr (format_2f x +:+ " MB")
       else
         let? x := true_div_pow2 bytes_size 30 in
         inr (format_2f x +:+ " GB"))
      ValueError_
      (fun _ => inr "Invalid size").

(** ** The Drive service and the local disk *)

(** A record of the remote catalog: [{'id': ..., 'name': ...}]. *)
Record file : Type := File { file_id : string; file_name : string }.

(** The answer to [files().list(fields="files(id, name), nextPageToken")];
    either key may be missing. *)
Record list_response : Type :=
  ListResponse { files : option (list file); nextPageToken : option string }.

(** What one [downloader.next_chunk()] does: the bytes it writes to the
    destination, [int(status.progress() * 100)] for the status it returns
    (the only use the handler makes of the status), and the [done] flag. *)
Record chunk : Type :=
  Chunk { content : string; percent : Z; done : bool }.

(** The answer to [about().get(fields="storageQuota")]. *)
Record quota : Type := Quota { limit : option pyval; usage : option pyval }.
Record about_response : Type := About { storageQuota : option quota }.

(** How the environment answers the requests that do not depend on what the
    handler did before. *)
Record Env : Type := {
  (** [files().delete(fileId=i).execute()], given the ids already sent *)
  delete_outcome : list string -> string -> option exn;
  (** [files().create(body={'name': n}, media_body=m, fields='id').execute()]:
      the ['id'] entry of the answer, if any *)
  create_outcome : string -> string -> exn + option string;
  (** [files().get_media(fileId=i)] and the chunks the downloader built on
      the request will deliver *)
  media_outcome : string -> exn + list (exn + chunk);
  (** [about().get(fields="storageQuota").execute()] *)
  about_outcome : exn + about_response;
  (** [io.FileIO(path, 'wb')]: the error, when the path cannot be opened *)
  open_error : string -> option exn
}.

Record World : Type := {
  env : Env;
  (** the answers [files().list(...).execute()] will give, in order; a
      request made after the last one raises *)
  list_script : list (exn + list_response);
  (** the [pageToken] of every list request made so far, oldest first *)
  list_calls : list (option string);
  (** the [fileId] of every delete request made so far, oldest first *)
  delete_calls : list string;
  (** the local files, by path *)
  disk : gmap string string;
  (** the percentages written by the progress line of [download_pdf] *)
  progress_seen : list Z
}.

(** ** The monad of the handler's methods *)

Definition M (A : Type) : Type := World -> (exn + A) * World.

Definition ret {A : Type} (a : A) : M A := fun w => (inr a, w).

Definition raise {A : Type} (e : exn) : M A := fun w => (inl e, w).

Definition bind {A B : Type} (m : M A) (k : A -> M B) : M B :=
  fun w =>
    match m w with
    | (inl e, w') => (inl e, w')
    | (inr a, w') => k a w'
    end.

(** [try: m  except c: h] *)
Definition try_except {A : Type} (m : M A) (c : exn_class) (h : exn -> M A)
  : M A :=
  fun w =>
    match m w with
    | (inl e, w') => if isinstance e c then h e w' else (inl e, w')
    | (inr a, w') => (inr a, w')
    end.

(** A pure computation that may raise. *)
Definition lift {A : Type} (r : exn + A) : M A := fun w => (r, w).

Notation "'do' x <- m ; k" := (bind m (fun x => k))
  (at level 10, x name, m at level 100, k at level 200).

(** [for x in l: body x] *)
Fixpoint for_each {A : Type} (l : list A) (body : A -> M unit) : M unit :=
  match l with
  | [] => ret tt
  | x :: l => do _ <- body x; for_each l body
  end.

(** ** Requests *)

Module Service.

(** Field updates of the world. *)
Definition with_list (script : list (exn + list_response))
    (calls : list (option string)) (w : World) : World :=
  {| env := env w; list_script := script; list_calls := calls;
     delete_calls := delete_calls w; disk := disk w;
     progress_seen := progress_seen w |}.

Definition with_delete_calls (calls : list string) (w : World) : World :=
  {| env := env w; list_script := list_script w; list_calls := list_calls w;
     delete_calls := calls; disk := disk w;
     progress_seen := progress_seen w |}.

Definition with_disk (d : gmap string string) (w : World) : World :=
  {| env := env w; list_script := list_script w; list_calls := list_calls w;
     delete_calls := delete_calls w; disk := d;
     progress_seen := progress_seen w |}.

Definition with_progress (seen : list Z) (w : World) : World :=
  {| env := env w; list_script := list_script w; list_calls := list_calls w;
     delete_calls := delete_calls w; disk := disk w;
     progress_seen := seen |}.

(** [files().list(fields=..., pageToken=pageToken).execute()] *)
Definition files_list (pageToken : option string) : M list_response :=
  fun w =>
    let calls := list_calls w ++ [pageToken] in
    match list_script w with
    | [] => (inl StopIteration, with_list [] calls w)
    | r :: script => (r, with_list script calls w)
    end.

(** [files().delete(fileId=fileId).execute()] *)
Definition files_delete (fileId : string) : M unit :=
  fun w =>
    let w' := with_delete_calls (delete_calls w ++ [fileId]) w in
    match delete_outcome (env w) (delete_calls w) fileId with
    | Some e => (inl e, w')
    | None => (inr tt, w')
    end.

(** [MediaFileUpload(path, mimetype='application/pdf')] opens the local file
    for reading. *)
Definition MediaFileUpload (path : string) : M string :=
  fun w =>
    match disk w !! path with
    | Some bytes => (inr bytes, w)
    | None => (inl OSError, w)
    end.

(** [files().create(body={'name': name}, media_body=media, fields='id')
    .execute()] *)
Definition files_create (name media : string) : M (option string) :=
  fun w => (create_outcome (env w) name media, w).

(** [files().get_media(fileId=fileId)] *)
Definition files_get_media (fileId : string) : M (list (exn + chunk)) :=
  fun w => (media_outcome (env w) fileId, w).

(** [about().get(fields="storageQuota").execute()] *)
Definition about_get : M about_response :=
  fun w => (about_outcome (env w), w).

(** [io.FileIO(path, 'wb')] creates the file, or truncates it. *)
Definition FileIO_wb (path : string) : M unit :=
  fun w =>
    match open_error (env w) path with
    | Some e => (inl e, w)
    | None => (inr tt, with_disk (<[path := ""]> (disk w)) w)
    end.

(** [fh.write(bytes)] on the unbuffered file opened by [FileIO_wb]. *)
Definition fh_write (path bytes : string) : M unit :=
  fun w =>
    (inr tt,
     with_disk (<[path := default "" (disk w !! path) +:+ bytes]> (disk w)) w).

(** [logger.info(f"Download {p}%.")] *)
Definition log_progress (p : Z) : M unit :=
  fun w => (inr tt, with_progress (progress_seen w ++ [p]) w).

End Service.

Import Service.

(** ** The handler *)

(** Truth value of a page token: [None] and the empty string are false. *)
Definition truthy (page_token : option string) : bool :=
  match page_token with
  | Some t => negb (bool_decide (t = ""))
  | None => false
  end.

(** One unit of [fuel] per pass of a [while True] over list requests.  Every
    pass consumes one scripted answer and a request beyond the script raises,
    so [while_fuel] is never used up (lemma [fetch_pages_fuel] below). *)
Definition while_fuel (w : World) : nat := S (length (list_script w)).

Definition delete_file (file_id : string) : M bool :=
  try_except
    (do _ <- files_delete file_id;
     ret true)
    Exception_
    (fun _ => ret false).

(** The enumeration loop of [remove_duplicate_files] (lines 76-83). *)
Fixpoint fetch_pages (fuel : nat) (page_token : option string)
    (files_acc : list file) : M (list file) :=
  match fuel with
  | O => raise StopIteration
  | S fuel =>
      do results <- files_list page_token;
      let files_acc := files_acc ++ default [] (files results) in
      let page_token := nextPageToken results in
      if negb (truthy page_token) then ret files_acc
      else fetch_pages fuel page_token files_acc
  end.

(** The scan of lines 89-99: [file_names] maps a name to the first id seen
    with it, [duplicate_files_ids] collects the ids of the other records. *)
Definition scan_step (st : gmap string string * list string) (f : file)
  : gmap string string * list string :=
  let '(file_names, duplicate_files_ids) := st in
  if decide (is_Some (file_names !! file_name f))
  then (file_names, duplicate_files_ids ++ [file_id f])
  else (<[file_name f := file_id f]> file_names, duplicate_files_ids).

Definition scan (files : list file) : gmap string string * list string :=
  foldl scan_step (∅, []) files.

Definition remove_duplicate_files : M pyval :=
  try_except
    (fun w =>
       (do files <- fetch_pages (while_fuel w) None [];
        match files with
        | [] => ret VNone
        | _ =>
            let '(_, duplicate_files_ids) := scan files in
            match duplicate_files_ids with
            | _ :: _ =>
                do _ <- for_each duplicate_files_ids
                          (fun file_id => do _ <- delete_file file_id; ret tt);
                ret VNone
            | [] => ret VNone
            end
        end) w)
    Exception_
    (fun _ => ret VNone).

(** The enumeration loop of [list_files] (lines 120-139). *)
Fixpoint list_files_loop (fuel : nat) (page_token : option string)
    (file_list : list file) : M (list file) :=
  match fuel with
  | O => raise StopIteration
  | S fuel =>
      do results <- files_list page_token;
      match default [] (files results) with
      | [] => ret file_list
      | files =>
          let file_list :=
            file_list ++ map (fun f => File (file_id f) (file_name f)) files in
          let page_token := nextPageToken results in
          if negb (truthy page_token) then ret file_list
          else list_files_loop fuel page_token file_list
      end
  end.

Definition list_files : M (list file) :=
  try_except
    (fun w => list_files_loop (while_fuel w) None [] w)
    Exception_
    (fun _ => ret []).

Definition upload_pdf (local_pdf_path drive_file_name : string) : M pyval :=
  try_except
    (do media <- MediaFileUpload local_pdf_path;
     do uploaded_file <- files_create drive_file_name media;
     ret (from_option VStr VNone uploaded_file))
    Exception_
    (fun _ => ret VNone).

(** The [while not done] loop of [download_pdf]; [chunks] is what the
    downloader still has to deliver. *)
Fixpoint download_loop (chunks : list (exn + chunk)) (path : string)
  : M unit :=
  match chunks with
  | [] => raise StopIteration
  | inl e :: _ => raise e
  | inr c :: chunks =>
      do _ <- fh_write path (content c);
      do _ <- log_progress (percent c);
      if done c then ret tt else download_loop chunks path
  end.

Definition download_pdf (file_id local_destination_path : string) : M pyval :=
  try_except
    (do request <- files_get_media file_id;
     do _ <- FileIO_wb local_destination_path;
     do _ <- download_loop request local_destination_path;
     ret VNone)
    Exception_
    (fun _ => ret VNone).

(** [quota.get(key, 'N/A')], then the size formatter unless it is ['N/A']. *)
Definition space_field (field : option pyval) : exn + string :=
  let space := default (VStr "N/A") field in
  if negb (eq_str space "N/A") then convert_bytes space else inr "N/A".

Definition get_drive_info : M (gmap string string) :=
  try_except
    (do drive_info <- about_get;
     let quota := default (Quota None None) (storageQuota drive_info) in
     do total_space <- lift (space_field (limit quota));
     do used_space <- lift (space_field (usage quota));
     ret ({[ "total_space" := total_space; "used_space" := used_space ]}))
    HttpError_
    (fun _ => ret ∅).

(** ** The script at the end of the module *)

(** [pdf_files_to_upload]: local path and name on the Drive. *)
Definition pdf_files_to_upload : list (string * string) :=
  [("D:\Projects\mslookup\data\registers_pdf\100380043_01-05-2029.pdf",
    "100380043.pdf");
   ("D:\Projects\mslookup\data\registers_pdf\100431114_01-03-2025.pdf",
    "100431114.pdf");
   ("D:\Projects\mslookup\data\registers_pdf\100431422_01-10-2030.pdf",
    "100431422.pdf");
   ("D:\Projects\mslookup\data\registers_pdf\100470270_01-10-2025.pdf",
    "100470270.pdf");
   ("D:\Projects\mslookup\data\registers_pdf\100470331_01-09-2026.pdf",
    "100470331.pdf")].

Section Script.

(** [GoogleDriveHandler()]: the constructor calls [get_logger], which makes
    the log directory and opens the log file, outside any [try]. *)
Variable new_handler : exn + unit.

(** [print(v)]: the exception, when writing to the standard output fails. *)
Variable print_error : pyval -> option exn.

(** [os.path.join(os.path.expanduser('~'), 'Downloads', name)], which depends
    on the platform and on the user. *)
Variable downloads : string -> string.

Definition print_ (v : pyval) : M unit :=
  lift (match print_error v with Some e => inl e | None => inr tt end).

(** The statements under [if __name__ == '__main__'].  After the handler is
    made, [authenticate_service_account] and [create_drive_service] run:
    each catches every exception and returns [None] then, so neither
    raises, and the service they give, working or not, is what the world
    stands for. *)
Definition main : M unit :=
  do handler <- lift new_handler;
  do files <- list_files;
  do files_info <- get_drive_info;
  do _ <- for_each pdf_files_to_upload
            (fun pair =>
               do pdf_file_id <- upload_pdf pair.1 pair.2;
               print_ pdf_file_id);
  do _ <- remove_duplicate_files;
  do files <- list_files;
  for_each files
    (fun file =>
       let local_destination_path := downloads (file_name file) in
       do _ <- download_pdf (file_id file) local_destination_path;
       ret tt).

End Script.

(** ** Specification vocabulary *)

(** The records of a page: [results.get('files', [])]. *)
Definition page_files (p : list_response) : list file :=
  default [] (files p).

(** A sequence of pages as the store issues them: every page but the last
    carries a token, the last carries none. *)
Fixpoint paginated (pages : list list_response) : bool :=
  match pages with
  | [] => false
  | [p] => negb (truthy (nextPageToken p))
  | p :: pages => truthy (nextPageToken p) && paginated pages
  end.

(** The tokens a complete enumeration sends: none first, then the token of
    each page but the last. *)
Definition tokens_sent (pages : list list_response) : list (option string) :=
  None :: (nextPageToken <$> removelast pages).

(** The ids of the records whose name already occurred, [seen] being the
    names met before [catalog], in catalog order. *)
Fixpoint repeated_from (seen : list string) (catalog : list file)
  : list string :=
  match catalog with
  | [] => []
  | f :: catalog =>
      (if decide (file_name f ∈ seen) then [file_id f] else [])
      ++ repeated_from (seen ++ [file_name f]) catalog
  end.

Definition repeated_ids (catalog : list file) : list string :=
  repeated_from [] catalog.

(** The id of the first record of [catalog] named [n]. *)
Definition first_id (n : string) (catalog : list file) : option string :=
  file_id <$> head (filter (fun f => file_name f = n) catalog).

(** The chunks a downloader delivers before it reports done, raises, or has
    nothing left, and the exception that ended the download, if any. *)
Fixpoint delivered (chunks : list (exn + chunk)) : list chunk * option exn :=
  match chunks with
  | [] => ([], Some StopIteration)
  | inl e :: _ => ([], Some e)
  | inr c :: chunks =>
      if done c then ([c], None)
      else let '(cs, r) := delivered chunks in (c :: cs, r)
  end.

(** The bytes of a sequence of chunks. *)
Definition chunk_bytes (cs : list chunk) : string :=
  foldr (fun c s => content c +:+ s) "" cs.

(** The records left once the ids the scan collected are deleted. *)
Definition survivors (catalog : list file) : list file :=
  filter (fun f => file_id f ∉ repeated_ids catalog) catalog.

(** The pages up to the first empty one. *)
Fixpoint until_empty (pages : list list_response) : list list_response :=
  match pages with
  | [] => []
  | p :: pages =>
      match page_files p with
      | [] => []
      | _ => p :: until_empty pages
      end
  end.

(** The units of the size formatter, with their suffixes. *)
Definition units : list (Z * string) :=
  [(1024, " KB"); (1024 * 1024, " MB"); (1024 * 1024 * 1024, " GB")].

(** ** Sample stores *)

Module Sample.

Definition id1 : string := "id1".
Definition id2 : string := "id2".
Definition id3 : string := "id3".
Definition id4 : string := "id4".

(** The catalog of the deduplication example. *)
Definition catalog : list file :=
  [File id1 "a"; File id2 "a"; File id3 "b"; File id4 "a"].

(** Three chunks, the last one reported done. *)
Definition three_chunks : list (exn + chunk) :=
  [inr (Chunk "%PDF" 33 false); inr (Chunk "-1.7" 66 false);
   inr (Chunk "%EOF" 100 true)].

(** One chunk, then the connection drops. *)
Definition broken_chunks : list (exn + chunk) :=
  [inr (Chunk "%PDF" 33 false); inl TimeoutError].

(** An environment where deleting [id2] is refused and every other request
    is served; the file ["broken"] cannot be fetched to the end. *)
Definition env_ok : Env :=
  {| delete_outcome := fun _ i =>
       if bool_decide (i = id2) then Some HttpError else None;
     create_outcome := fun _ _ => inr (Some "new-id");
     media_outcome := fun i =>
       if bool_decide (i = "broken") then inr broken_chunks
       else inr three_chunks;
     about_outcome :=
       inr (About (Some (Quota None (Some (VStr "1536")))));
     open_error := fun _ => None |}.

(** The same environment with the quota request timing out. *)
Definition env_timeout : Env :=
  {| delete_outcome := delete_outcome env_ok;
     create_outcome := create_outcome env_ok;
     media_outcome := media_outcome env_ok;
     about_outcome := inl TimeoutError;
     open_error := open_error env_ok |}.

Definition world (e : Env) (script : list (exn + list_response)) : World :=
  {| env := e; list_script := script; list_calls := []; delete_calls := [];
     disk := ∅; progress_seen := [] |}.

Definition page (l : list file) (t : option string) : exn + list_response :=
  inr (ListResponse (Some l) t).

(** An empty page that still carries a token, then a page with one record. *)
Definition empty_then_one : list (exn + list_response) :=
  [page [] (Some "t1"); page [File id1 "a"] None].

(** The example catalog served in two pages with an empty page in between. *)
Definition catalog_pages : list (exn + list_response) :=
  [page [File id1 "a"; File id2 "a"] (Some "t1"); page [] (Some "t2");
   page [File id3 "b"; File id4 "a"] None].

(** The second page request fails. *)
Definition failing_pages : list (exn + list_response) :=
  [page [File id1 "a"; File id2 "a"] (Some "t1"); inl HttpError].


(** An environment where no local file can be opened for writing. *)
Definition env_locked : Env :=
  {| delete_outcome := delete_outcome env_ok;
     create_outcome := create_outcome env_ok;
     media_outcome := media_outcome env_ok;
     about_outcome := about_outcome env_ok;
     open_error := fun _ => Some OSError |}.

(** A world with one local file. *)
Definition world_with_file (e : Env) (path bytes : string) : World :=
  {| env := e; list_script := []; list_calls := []; delete_calls := [];
     disk := {[ path := bytes ]}; progress_seen := [] |}.

End Sample.

(** * Properties *)

(** ** Rounding *)

Section Rounding.

Lemma round_half_even_bounds (n d : Z) :
  0 <= n -> 0 < d -> n / d <= round_half_even n d <= n / d + 1.
Proof.
  intros _ _. unfold round_half_even.
  destruct (_ || _); lia.
Qed.

Lemma round_half_even_nearest (n d : Z) :
  0 <= n -> 0 < d -> - d <= 2 * (d * round_half_even n d - n) <= d.
Proof.
  intros Hn Hd. unfold round_half_even.
  pose proof (Z.div_mod n d ltac:(lia)) as Hdm.
  pose proof (Z.mod_pos_bound n d Hd) as Hr.
  destruct (_ || _) eqn:Hup.
  - apply orb_true_iff in Hup as [Hup | Hup].
    + apply Z.ltb_lt in Hup. nia.
    + apply andb_true_iff in Hup as [Hup _]. apply Z.eqb_eq in Hup. nia.
  - apply orb_false_iff in Hup as [Hup _]. apply Z.ltb_ge in Hup. nia.
Qed.

Lemma round_half_even_unit (n : Z) : round_half_even n 1 = n.
Proof.
  unfold round_half_even. rewrite Z.mod_1_r, Z.div_1_r. reflexivity.
Qed.

Lemma true_div_pow2_small (a k : Z) :
  0 <= a < 2 ^ 53 -> 0 <= k -> true_div_pow2 a k = inr (Float a (- k)).
Proof.
  intros [Ha0 Ha] Hk. unfold true_div_pow2.
  assert (Hlog : Z.log2 a < 53).
  { destruct (Z.eq_dec a 0) as [-> | Hne]; [reflexivity |].
    apply Z.log2_lt_pow2; lia. }
  rewrite Z.max_l by lia.
  change (2 ^ 0) with 1. rewrite round_half_even_unit.
  destruct (Z.leb_spec 1024 (Z.log2 a + 0 - k)); [lia |].
  reflexivity.
Qed.

Lemma hundredths_small (a k : Z) :
  0 < k -> hundredths (Float a (- k)) = round_half_even (100 * a) (2 ^ k).
Proof.
  intros Hk. unfold hundredths. simpl.
  destruct (Z.leb_spec 0 (- k)); [lia |].
  rewrite Z.opp_involutive. reflexivity.
Qed.

End Rounding.

(** ** The float range of [true_div_pow2] *)

Section Overflow.

Lemma true_div_pow2_overflow (a k : Z) :
  0 <= k -> 2 ^ (1024 + k) - 2 ^ (970 + k) <= a ->
  true_div_pow2 a k = inl OverflowError.
Proof.
  intros Hk Ha.
  set (P := 2 ^ (970 + k)) in *.
  assert (HP : 0 < P) by (apply Z.pow_pos_nonneg; lia).
  assert (E1024 : 2 ^ (1024 + k) = 2 ^ 54 * P).
  { unfold P. rewrite <- Z.pow_add_r by lia. f_equal; lia. }
  assert (E1023 : 2 ^ (1023 + k) = 2 ^ 53 * P).
  { unfold P. rewrite <- Z.pow_add_r by lia. f_equal; lia. }
  assert (Hpos : 0 < a) by lia.
  assert (HL : 1023 + k <= Z.log2 a) by (apply Z.log2_le_pow2; lia).
  destruct (Z.log2_spec a Hpos) as [Hlo Hhi].
  unfold true_div_pow2.
  rewrite Z.max_r by lia.
  set (sh := Z.log2 a + 1 - 53).
  set (D := 2 ^ sh).
  assert (HD : 0 < D) by (apply Z.pow_pos_nonneg; lia).
  assert (ELo : 2 ^ Z.log2 a = 2 ^ 52 * D).
  { unfold D, sh. rewrite <- Z.pow_add_r by lia. f_equal; lia. }
  assert (EHi : 2 ^ Z.succ (Z.log2 a) = 2 ^ 53 * D).
  { unfold D, sh. rewrite <- Z.pow_add_r by lia. f_equal; lia. }
  pose proof (Z.div_mod a D ltac:(lia)) as Hdm.
  pose proof (Z.mod_pos_bound a D HD) as Hr.
  assert (Hq : 2 ^ 52 <= a / D < 2 ^ 53) by (split; nia).
  assert (Hm : 2 ^ (1024 + k - sh) <= round_half_even a D).
  { destruct (Z.eq_dec (Z.log2 a) (1023 + k)) as [HLe | HLne].
    - assert (ED : D = 2 * P).
      { unfold D, sh, P. rewrite HLe.
        replace (1023 + k + 1 - 53) with (1 + (970 + k)) by lia.
        rewrite Z.pow_add_r by lia. reflexivity. }
      replace (1024 + k - sh) with 53 by (unfold sh; lia).
      assert (Eq : a / D = 2 ^ 53 - 1) by nia.
      unfold round_half_even. rewrite Eq.
      assert (Hup : (D <? 2 * (a mod D)) || ((2 * (a mod D) =? D) && Z.odd (2 ^ 53 - 1)) = true).
      { destruct (Z.ltb_spec D (2 * (a mod D))); [reflexivity |].
        simpl. apply andb_true_iff. split; [apply Z.eqb_eq; nia | reflexivity]. }
      rewrite Hup. lia.
    - pose proof (round_half_even_bounds a D ltac:(lia) HD) as Hb.
      assert (2 ^ (1024 + k - sh) <= 2 ^ 52); [| lia].
      apply Z.pow_le_mono_r; unfold sh; lia. }
  assert (Hm0 : 0 < round_half_even a D).
  { pose proof (round_half_even_bounds a D ltac:(lia) HD). lia. }
  assert (1024 + k - sh <= Z.log2 (round_half_even a D)).
  { apply Z.log2_le_pow2; assumption. }
  destruct (Z.leb_spec 1024 (Z.log2 (round_half_even a D) + sh - k)); [reflexivity | lia].
Qed.

Lemma true_div_pow2_finite (a k : Z) :
  0 <= a -> 0 <= k -> a < 2 ^ (1024 + k) - 2 ^ (970 + k) ->
  exists x, true_div_pow2 a k = inr x.
Proof.
  intros Ha0 Hk Ha.
  destruct (Z.lt_ge_cases a (2 ^ 53)) as [Hsmall | Hbig].
  { eexists. apply true_div_pow2_small; lia. }
  set (P := 2 ^ (970 + k)) in *.
  assert (HP : 0 < P) by (apply Z.pow_pos_nonneg; lia).
  assert (E1024 : 2 ^ (1024 + k) = 2 ^ 54 * P).
  { unfold P. rewrite <- Z.pow_add_r by lia. f_equal; lia. }
  assert (Hpos : 0 < a) by lia.
  assert (HL53 : 53 <= Z.log2 a) by (apply Z.log2_le_pow2; lia).
  assert (HL : Z.log2 a < 1024 + k) by (apply Z.log2_lt_pow2; lia).
  destruct (Z.log2_spec a Hpos) as [Hlo Hhi].
  unfold true_div_pow2.
  rewrite Z.max_r by lia.
  set (sh := Z.log2 a + 1 - 53).
  set (D := 2 ^ sh).
  assert (HD : 0 < D) by (apply Z.pow_pos_nonneg; lia).
  assert (ELo : 2 ^ Z.log2 a = 2 ^ 52 * D).
  { unfold D, sh. rewrite <- Z.pow_add_r by lia. f_equal; lia. }
  assert (EHi : 2 ^ Z.succ (Z.log2 a) = 2 ^ 53 * D).
  { unfold D, sh. rewrite <- Z.pow_add_r by lia. f_equal; lia. }
  pose proof (Z.div_mod a D ltac:(lia)) as Hdm.
  pose proof (Z.mod_pos_bound a D HD) as Hr.
  assert (Hq : 2 ^ 52 <= a / D < 2 ^ 53) by (split; nia).
  pose proof (round_half_even_bounds a D ltac:(lia) HD) as Hb.
  assert (Hm : round_half_even a D < 2 ^ (1024 + k - sh)).
  { destruct (Z.eq_dec (Z.log2 a) (1023 + k)) as [HLe | HLne].
    - assert (ED : D = 2 * P).
      { unfold D, sh, P. rewrite HLe.
        replace (1023 + k + 1 - 53) with (1 + (970 + k)) by lia.
        rewrite Z.pow_add_r by lia. reflexivity. }
      replace (1024 + k - sh) with 53 by (unfold sh; lia).
      unfold round_half_even in *.
      destruct (_ || _) eqn:Hup; [| lia].
      apply orb_true_iff in Hup as [Hup | Hup].
      + apply Z.ltb_lt in Hup. nia.
      + apply andb_true_iff in Hup as [Hup _]. apply Z.eqb_eq in Hup. nia.
    - assert (2 ^ 54 <= 2 ^ (1024 + k - sh)); [| lia].
      apply Z.pow_le_mono_r; unfold sh; lia. }
  assert (Z.log2 (round_half_even a D) < 1024 + k - sh).
  { apply Z.log2_lt_pow2; lia. }
  destruct (Z.leb_spec 1024 (Z.log2 (round_half_even a D) + sh - k)); [lia |].
  eexists; reflexivity.
Qed.

End Overflow.

(** ** The size formatter, bracket by bracket *)

Section Formatter.

Lemma true_div_pow2_raises (a k : Z) (e : exn) :
  true_div_pow2 a k = inl e -> e = OverflowError.
Proof.
  unfold true_div_pow2. destruct (_ <=? _); congruence.
Qed.

Lemma etry_true_div {A : Type} (a k : Z) (f : float -> A) (h : exn -> exn + A) :
  etry (let? x := true_div_pow2 a k in inr (f x)) ValueError_ h =
    (let? x := true_div_pow2 a k in inr (f x)).
Proof.
  destruct (true_div_pow2 a k) as [e | x] eqn:Hdiv; [| reflexivity].
  apply true_div_pow2_raises in Hdiv as ->. reflexivity.
Qed.

(** The digit cap is far above the float range. *)
Lemma str_limit_large : 2 ^ 1054 < 10 ^ max_str_digits.
Proof. vm_compute. reflexivity. Qed.

Lemma str_small (b : Z) :
  - 10 ^ max_str_digits < b < 10 ^ max_str_digits -> str_ b = inr (pretty b).
Proof.
  intros Hb. unfold str_.
  destruct (Z.leb_spec (10 ^ max_str_digits) (Z.abs b)); [lia | reflexivity].
Qed.

Lemma str_huge (b : Z) :
  10 ^ max_str_digits <= Z.abs b -> str_ b = inl ValueError.
Proof.
  intros Hb. unfold str_.
  destruct (Z.leb_spec (10 ^ max_str_digits) (Z.abs b)); [reflexivity | lia].
Qed.

Lemma convert_bytes_int_unfold (b : Z) :
  convert_bytes (VInt b) =
    if b <? 1024 then
      match str_ b with
      | inr digits => inr (digits +:+ " bytes")
      | inl _ => inr "Invalid size"
      end
    else if b <? 1024 * 1024 then
      let? x := true_div_pow2 b 10 in inr (format_2f x +:+ " KB")
    else if b <? 1024 * 1024 * 1024 then
      let? x := true_div_pow2 b 20 in inr (format_2f x +:+ " MB")
    else
      let? x := true_div_pow2 b 30 in inr (format_2f x +:+ " GB").
Proof.
  unfold convert_bytes. cbn [eq_str int_ ebind].
  destruct (b <? 1024).
  { unfold str_. destruct (_ <=? _); reflexivity. }
  destruct (b <? 1024 * 1024); [apply (etry_true_div _ _ (fun x => format_2f x +:+ " KB")) |].
  destruct (b <? 1024 * 1024 * 1024); [apply (etry_true_div _ _ (fun x => format_2f x +:+ " MB")) |].
  apply (etry_true_div _ _ (fun x => format_2f x +:+ " GB")).
Qed.

Lemma convert_bytes_finite (b : Z) :
  - 10 ^ max_str_digits < b < 2 ^ 1054 - 2 ^ 1000 ->
  (b < 1024 /\ convert_bytes (VInt b) = inr (pretty b +:+ " bytes")) \/
  (1024 <= b < 1024 ^ 2 /\
     convert_bytes (VInt b) =
       inr (fixed2 (round_half_even (100 * b) 1024) +:+ " KB")) \/
  (1024 ^ 2 <= b < 1024 ^ 3 /\
     convert_bytes (VInt b) =
       inr (fixed2 (round_half_even (100 * b) (1024 ^ 2)) +:+ " MB")) \/
  (1024 ^ 3 <= b /\
     exists x, true_div_pow2 b 30 = inr x /\
       convert_bytes (VInt b) = inr (format_2f x +:+ " GB") /\
       (b < 2 ^ 53 -> hundredths x = round_half_even (100 * b) (1024 ^ 3))).
Proof.
  intros [Hneg Hb]. rewrite convert_bytes_int_unfold.
  change (1024 * 1024 * 1024) with (1024 ^ 3).
  change (1024 * 1024) with (1024 ^ 2).
  destruct (Z.ltb_spec b 1024) as [H1 | H1].
  { left. split; [exact H1 |]. rewrite str_small; [reflexivity |].
    pose proof str_limit_large. lia. }
  destruct (Z.ltb_spec b (1024 ^ 2)) as [H2 | H2].
  { right; left. split; [lia |].
    rewrite true_div_pow2_small by lia. cbn [ebind].
    unfold format_2f. rewrite hundredths_small by lia. reflexivity. }
  destruct (Z.ltb_spec b (1024 ^ 3)) as [H3 | H3].
  { right; right; left. split; [lia |].
    rewrite true_div_pow2_small by lia. cbn [ebind].
    unfold format_2f. rewrite hundredths_small by lia. reflexivity. }
  right; right; right. split; [lia |].
  destruct (true_div_pow2_finite b 30) as [x Hx]; [lia | lia | exact Hb |].
  exists x. rewrite Hx. cbn [ebind]. split; [reflexivity |]. split; [reflexivity |].
  intros Hsmall. rewrite true_div_pow2_small in Hx by lia.
  injection Hx as <-. apply hundredths_small; lia.
Qed.

(** An integer too long for [str] falls in the first bracket when it is
    negative, and the [ValueError] of [str] is caught. *)
Lemma convert_bytes_unprintable (b : Z) :
  b <= - 10 ^ max_str_digits -> convert_bytes (VInt b) = inr "Invalid size".
Proof.
  intros Hb. rewrite convert_bytes_int_unfold.
  pose proof str_limit_large.
  destruct (Z.ltb_spec b 1024); [| lia].
  rewrite str_huge by lia. reflexivity.
Qed.

Lemma convert_bytes_overflow (b : Z) :
  2 ^ 1054 - 2 ^ 1000 <= b -> convert_bytes (VInt b) = inl OverflowError.
Proof.
  intros Hb. rewrite convert_bytes_int_unfold.
  destruct (Z.ltb_spec b 1024); [lia |].
  destruct (Z.ltb_spec b (1024 * 1024)); [lia |].
  destruct (Z.ltb_spec b (1024 * 1024 * 1024)); [lia |].
  rewrite true_div_pow2_overflow; [reflexivity | lia | exact Hb].
Qed.

Lemma convert_bytes_of_int (v : pyval) (b : Z) :
  int_ v = inr b -> convert_bytes v = convert_bytes (VInt b).
Proof.
  intros Hv. unfold convert_bytes at 1.
  destruct (eq_str v "N/A") eqn:Hna.
  { destruct v as [| | |s]; try discriminate.
    apply bool_decide_eq_true in Hna as ->. discriminate Hv. }
  rewrite Hv. reflexivity.
Qed.

Lemma convert_bytes_returns (v : pyval) (b : Z) :
  int_ v = inr b -> b < 2 ^ 1054 - 2 ^ 1000 ->
  exists r, convert_bytes v = inr r.
Proof.
  intros Hv Hb. rewrite (convert_bytes_of_int v b Hv).
  destruct (Z.le_gt_cases b (- 10 ^ max_str_digits)) as [Hneg | Hneg].
  { rewrite (convert_bytes_unprintable b Hneg). eauto. }
  destruct (convert_bytes_finite b)
    as [[_ H] | [[_ H] | [[_ H] | [_ (x & _ & H & _)]]]]; [lia | eauto ..].
Qed.

Lemma convert_bytes_invalid (s : string) :
  s <> "N/A" -> int_of_str s = None ->
  convert_bytes (VStr s) = inr "Invalid size".
Proof.
  intros Hs Hparse. unfold convert_bytes. cbn [eq_str int_].
  rewrite bool_decide_eq_false_2 by exact Hs. rewrite Hparse. reflexivity.
Qed.

(** The two ways the formatter raises. *)
Lemma convert_bytes_raises (v : pyval) (e : exn) :
  convert_bytes v = inl e ->
  (v = VNone /\ e = TypeError) \/
  (e = OverflowError /\
   exists b, int_ v = inr b /\ 2 ^ 1054 - 2 ^ 1000 <= b).
Proof.
  intros He.
  destruct (int_ v) as [e' | b] eqn:Hv.
  - destruct v as [| [|] | z | s]; try discriminate Hv.
    + left. split; [reflexivity |]. vm_compute in He. congruence.
    + exfalso. cbn [int_] in Hv.
      destruct (int_of_str s) eqn:Hparse; [discriminate Hv |].
      destruct (decide (s = "N/A")) as [-> | Hs].
      * vm_compute in He. discriminate He.
      * rewrite (convert_bytes_invalid s Hs Hparse) in He. discriminate He.
  - right. destruct (Z.lt_ge_cases b (2 ^ 1054 - 2 ^ 1000)) as [Hlt | Hge].
    + destruct (convert_bytes_returns v b Hv Hlt) as [r Hr]. congruence.
    + rewrite (convert_bytes_of_int v b Hv), (convert_bytes_overflow b Hge)
        in He.
      split; [congruence | eauto].
Qed.

End Formatter.

(** ** Size formatter *)

(** C6, as stated, fails above the float range: [2 ** 1054] lies in the GB
    bracket, but [2 ** 1054 / 1024 ** 3] is not a float and the formatter
    raises instead of returning a string. *)
Lemma convert_bytes_brackets_counterexample :
  1024 ^ 3 <= 2 ^ 1054 /\
  convert_bytes (VInt (2 ^ 1054)) = inl OverflowError.
Proof.
  split; [| apply convert_bytes_overflow; vm_compute; discriminate].
  intros H. vm_compute in H. discriminate H.
Qed.

(** C6 (amended).  For every integer byte count [b] above [- 10 ** 4300]
    and below [2 ** 1054 - 2 ** 1000], [convert_bytes] returns ["{b} bytes"] when
    [b < 1024], [b / 1024] with two decimals and [" KB"] when
    [1024 <= b < 1024 ** 2], [b / 1024 ** 2] with two decimals and [" MB"]
    when [1024 ** 2 <= b < 1024 ** 3], and [b / 1024 ** 3] with two decimals
    and [" GB"] when [1024 ** 3 <= b]: lower bounds included, upper bounds
    excluded, units in base 1024, the quotient rounded to the nearest
    hundredth (ties to even; below [2 ** 53] the float quotient is exact).
    From [2 ** 1054 - 2 ** 1000] on the division leaves the float range and
    the formatter raises [OverflowError]; down from [- 10 ** 4300] the
    integer has more than 4300 digits, [f"{b} bytes"] raises [ValueError]
    and the formatter returns ["Invalid size"].  The five sample values of
    the claim are as it gives them. *)
Theorem convert_bytes_brackets :
  (forall b : Z, - 10 ^ max_str_digits < b < 2 ^ 1054 - 2 ^ 1000 ->
     (b < 1024 /\ convert_bytes (VInt b) = inr (pretty b +:+ " bytes")) \/
     (1024 <= b < 1024 ^ 2 /\
        convert_bytes (VInt b) =
          inr (fixed2 (round_half_even (100 * b) 1024) +:+ " KB")) \/
     (1024 ^ 2 <= b < 1024 ^ 3 /\
        convert_bytes (VInt b) =
          inr (fixed2 (round_half_even (100 * b) (1024 ^ 2)) +:+ " MB")) \/
     (1024 ^ 3 <= b /\
        exists x, true_div_pow2 b 30 = inr x /\
          convert_bytes (VInt b) = inr (format_2f x +:+ " GB") /\
          (b < 2 ^ 53 ->
           hundredths x = round_half_even (100 * b) (1024 ^ 3)))) /\
  (forall b : Z, 2 ^ 1054 - 2 ^ 1000 <= b ->
     convert_bytes (VInt b) = inl OverflowError) /\
  (forall b : Z, b <= - 10 ^ max_str_digits ->
     convert_bytes (VInt b) = inr "Invalid size") /\
  convert_bytes (VInt 0) = inr "0 bytes" /\
  convert_bytes (VInt 1023) = inr "1023 bytes" /\
  convert_bytes (VInt 1024) = inr "1.00 KB" /\
  convert_bytes (VInt 1048576) = inr "1.00 MB" /\
  convert_bytes (VInt 1073741824) = inr "1.00 GB".
Proof.
  split; [exact convert_bytes_finite |].
  split; [exact convert_bytes_overflow |].
  split; [exact convert_bytes_unprintable |].
  repeat split; vm_compute; reflexivity.
Qed.

Lemma convert_bytes_brackets_witness :
  - 10 ^ max_str_digits < 1536 < 2 ^ 1054 - 2 ^ 1000 /\
  convert_bytes (VInt 1536) = inr "1.50 KB".
Proof.
  assert (Hb : - 10 ^ max_str_digits < 1536 < 2 ^ 1054 - 2 ^ 1000)
    by (split; vm_compute; reflexivity).
  split; [exact Hb |].
  destruct (proj1 convert_bytes_brackets 1536 Hb)
    as [[H _] | [[_ H] | [[[H _] _] | [H _]]]].
  - vm_compute in H. discriminate H.
  - exact H.
  - exfalso. apply H. vm_compute. reflexivity.
  - exfalso. apply H. vm_compute. reflexivity.
Defined.




(** ** Enumeration *)

(** [while_fuel] covers a script that starts with the pages at hand. *)
Ltac enough_fuel Hs :=
  unfold while_fuel; rewrite Hs, length_app, length_fmap; cbn; lia.

Section Enumeration.

Implicit Types (w : World) (pages : list list_response).

(** No enumeration runs out of fuel: any two amounts above the number of
    scripted answers give the same run. *)
Lemma fetch_pages_fuel (fuel fuel' : nat) :
  forall page_token acc w,
    (length (list_script w) < fuel)%nat ->
    (length (list_script w) < fuel')%nat ->
    fetch_pages fuel page_token acc w = fetch_pages fuel' page_token acc w.
Proof.
  revert fuel'. induction fuel as [| fuel IH]; intros fuel' tok acc w Hf Hf'.
  { lia. }
  destruct fuel' as [| fuel']; [lia |].
  cbn [fetch_pages]. unfold bind, files_list.
  destruct (list_script w) as [| [e | p] script] eqn:Hs; try reflexivity.
  cbn [length] in Hf, Hf'.
  destruct (negb (truthy (nextPageToken p))); [reflexivity |].
  apply IH; cbn; lia.
Qed.

Lemma list_files_loop_fuel (fuel fuel' : nat) :
  forall page_token acc w,
    (length (list_script w) < fuel)%nat ->
    (length (list_script w) < fuel')%nat ->
    list_files_loop fuel page_token acc w =
      list_files_loop fuel' page_token acc w.
Proof.
  revert fuel'. induction fuel as [| fuel IH]; intros fuel' tok acc w Hf Hf'.
  { lia. }
  destruct fuel' as [| fuel']; [lia |].
  cbn [list_files_loop]. unfold bind, files_list.
  destruct (list_script w) as [| [e | p] script] eqn:Hs; try reflexivity.
  cbn [length] in Hf, Hf'.
  destruct (default [] (files p)); [reflexivity |].
  destruct (negb (truthy (nextPageToken p))); [reflexivity |].
  apply IH; cbn; lia.
Qed.

(** Pagination completeness for the loop of [remove_duplicate_files]: the
    pages are concatenated in order, empty ones included, and each request
    carries the token of the page before. *)
Lemma fetch_pages_complete pages :
  paginated pages = true ->
  forall fuel page_token acc w rest,
    list_script w = (inr <$> pages) ++ rest ->
    (length pages <= fuel)%nat ->
    fetch_pages fuel page_token acc w =
      (inr (acc ++ concat (page_files <$> pages)),
       with_list rest
         (list_calls w ++ page_token :: (nextPageToken <$> removelast pages))
         w).
Proof.
  induction pages as [| p pages IH]; [discriminate |].
  intros Hpag fuel tok acc w rest Hs Hfuel.
  destruct fuel as [| fuel]; [cbn in Hfuel; lia |].
  cbn [fetch_pages]. unfold bind, files_list. rewrite Hs.
  cbn [fmap list_fmap app].
  destruct pages as [| p' pages].
  - cbn in Hpag. rewrite Hpag. cbn. rewrite app_nil_r. reflexivity.
  - cbn [paginated] in Hpag. apply andb_true_iff in Hpag as [Htok Hpag].
    rewrite Htok. cbn [negb].
    rewrite (IH Hpag fuel _ _ _ rest); [| reflexivity | cbn in Hfuel |- *; lia].
    cbn [concat fmap list_fmap removelast with_list list_calls].
    unfold page_files at 2. rewrite <- !app_assoc. reflexivity.
Qed.

(** The same for the loop of [list_files], provided no page before the last
    is empty. *)
Lemma list_files_loop_complete pages :
  paginated pages = true ->
  Forall (fun p => page_files p <> []) (removelast pages) ->
  forall fuel page_token acc w rest,
    list_script w = (inr <$> pages) ++ rest ->
    (length pages <= fuel)%nat ->
    list_files_loop fuel page_token acc w =
      (inr (acc ++ concat (page_files <$> pages)),
       with_list rest
         (list_calls w ++ page_token :: (nextPageToken <$> removelast pages))
         w).
Proof.
  induction pages as [| p pages IH]; [discriminate |].
  intros Hpag Hne fuel tok acc w rest Hs Hfuel.
  destruct fuel as [| fuel]; [cbn in Hfuel; lia |].
  cbn [list_files_loop]. unfold bind, files_list. rewrite Hs.
  cbn [fmap list_fmap app].
  assert (Hcopy : forall l : list file,
             map (fun f => File (file_id f) (file_name f)) l = l).
  { intros l. induction l as [| [i n] l IHl]; [reflexivity |].
    cbn. rewrite IHl. reflexivity. }
  change (default [] (files p)) with (page_files p).
  destruct pages as [| p' pages].
  - cbn [paginated] in Hpag.
    cbn [concat fmap list_fmap removelast]. rewrite !app_nil_r.
    destruct (page_files p) as [| f l] eqn:Hpf.
    + rewrite app_nil_r. reflexivity.
    + rewrite Hpag, Hcopy. reflexivity.
  - cbn [paginated] in Hpag. apply andb_true_iff in Hpag as [Htok Hpag].
    cbn [removelast] in Hne. apply Forall_cons in Hne as [Hp Hne].
    destruct (page_files p) as [| f l] eqn:Hpf; [congruence |].
    rewrite Htok, Hcopy. cbn [negb].
    rewrite (IH Hpag Hne fuel _ _ _ rest); [| reflexivity | cbn in Hfuel |- *; lia].
    cbn [concat fmap list_fmap removelast with_list list_calls].
    rewrite <- !app_assoc. reflexivity.
Qed.

(** [list_files] returns the whole catalog when no page before the last is
    empty. *)
Lemma list_files_complete pages w rest :
  paginated pages = true ->
  Forall (fun p => page_files p <> []) (removelast pages) ->
  list_script w = (inr <$> pages) ++ rest ->
  list_files w =
    (inr (concat (page_files <$> pages)),
     with_list rest (list_calls w ++ tokens_sent pages) w).
Proof.
  intros Hpag Hne Hs. unfold list_files, try_except.
  rewrite (list_files_loop_complete pages Hpag Hne _ _ _ w rest Hs);
    [reflexivity | enough_fuel Hs].
Qed.

End Enumeration.

(** ** Deduplication *)

Section Deduplication.

Implicit Types (w : World) (catalog : list file) (seen : list string).
Implicit Types (file_names : gmap string string).

(** The scan collects the ids of the repeated names, as long as the keys of
    [file_names] are the names seen so far. *)
Lemma scan_step_repeated catalog :
  forall file_names ids seen,
    (forall n, is_Some (file_names !! n) <-> n ∈ seen) ->
    (foldl scan_step (file_names, ids) catalog).2 =
      ids ++ repeated_from seen catalog.
Proof.
  induction catalog as [| f catalog IH]; intros m ids seen Hkeys.
  { cbn. rewrite app_nil_r. reflexivity. }
  cbn [foldl repeated_from scan_step].
  destruct (decide (is_Some (m !! file_name f))) as [Hin | Hout].
  - rewrite decide_True by (apply Hkeys; exact Hin).
    rewrite (IH m (ids ++ [file_id f]) (seen ++ [file_name f])).
    + rewrite <- app_assoc. reflexivity.
    + intros n. rewrite elem_of_app, list_elem_of_singleton, Hkeys.
      split; [tauto |]. intros [Hn | ->]; [exact Hn | apply Hkeys, Hin].
  - rewrite decide_False by (rewrite <- Hkeys; exact Hout).
    rewrite (IH _ ids (seen ++ [file_name f])); [reflexivity |].
    intros n.
    rewrite lookup_insert_is_Some', elem_of_app, list_elem_of_singleton, Hkeys.
    split; intros [H | H]; auto.
Qed.

Lemma scan_repeated catalog : (scan catalog).2 = repeated_ids catalog.
Proof.
  unfold scan, repeated_ids.
  rewrite (scan_step_repeated catalog ∅ [] []); [reflexivity |].
  intros n. rewrite lookup_empty, elem_of_nil. split; [intros [? ?]; discriminate | tauto].
Qed.

(** The map keeps, for each name, the id met first. *)
Lemma scan_step_first catalog :
  forall file_names ids n,
    (foldl scan_step (file_names, ids) catalog).1 !! n =
      match file_names !! n with
      | Some i => Some i
      | None => first_id n catalog
      end.
Proof.
  induction catalog as [| f catalog IH]; intros m ids n.
  { cbn. destruct (m !! n); reflexivity. }
  cbn [foldl scan_step].
  destruct (decide (is_Some (m !! file_name f))) as [Hin | Hout].
  - rewrite IH. destruct (m !! n) eqn:Hn; [reflexivity |].
    unfold first_id. rewrite filter_cons.
    destruct (decide (file_name f = n)) as [<- | Hne]; [| reflexivity].
    rewrite Hn in Hin. destruct Hin; discriminate.
  - rewrite IH. unfold first_id. rewrite filter_cons.
    destruct (decide (file_name f = n)) as [<- | Hne].
    + rewrite lookup_insert_eq. apply eq_None_not_Some in Hout.
      rewrite Hout. reflexivity.
    + rewrite lookup_insert_ne by exact Hne. reflexivity.
Qed.

Lemma scan_first catalog n : (scan catalog).1 !! n = first_id n catalog.
Proof. unfold scan. rewrite scan_step_first, lookup_empty. reflexivity. Qed.

(** An id is collected exactly when it is the id of a record whose name a
    record before it bears. *)
Lemma repeated_from_elem (x : string) catalog :
  forall seen,
    x ∈ repeated_from seen catalog <->
    exists pre f suf,
      catalog = pre ++ f :: suf /\ file_id f = x /\
      file_name f ∈ seen ++ (file_name <$> pre).
Proof.
  induction catalog as [| g catalog IH]; intros seen.
  { cbn. split; [intros H; inversion H |].
    intros (pre & f & suf & H & _). destruct pre; discriminate H. }
  cbn [repeated_from]. rewrite elem_of_app, IH. split.
  - intros [Hhere | (pre & f & suf & -> & Hid & Hname)].
    + destruct (decide (file_name g ∈ seen)) as [Hin | Hout].
      * apply list_elem_of_singleton in Hhere as ->.
        exists [], g, catalog. rewrite app_nil_r. auto.
      * inversion Hhere.
    + exists (g :: pre), f, suf. rewrite <- app_assoc in Hname. auto.
  - intros (pre & f & suf & Hcat & Hid & Hname).
    destruct pre as [| g' pre]; cbn in Hcat; injection Hcat as <- ->.
    + left. cbn in Hname. rewrite app_nil_r in Hname.
      rewrite decide_True by exact Hname. rewrite Hid. apply list_elem_of_here.
    + right. exists pre, f, suf. rewrite <- app_assoc. auto.
Qed.


End Deduplication.

Section DedupRun.

Implicit Types (w : World) (catalog : list file).

Lemma with_delete_calls_same w : with_delete_calls (delete_calls w) w = w.
Proof. destruct w; reflexivity. Qed.

(** [delete_file] sends one delete request and reports how it went. *)
Lemma delete_file_run (file_id : string) w :
  delete_file file_id w =
    (inr (bool_decide
            (delete_outcome (env w) (delete_calls w) file_id = None)),
     with_delete_calls (delete_calls w ++ [file_id]) w).
Proof.
  unfold delete_file, try_except, bind, files_delete, ret.
  destruct (delete_outcome (env w) (delete_calls w) file_id) as [e |];
    reflexivity.
Qed.

(** The deletion loop sends a request for every id, whatever the answers. *)
Lemma delete_all_run (ids : list string) :
  forall w,
    for_each ids (fun file_id => do _ <- delete_file file_id; ret tt) w =
      (inr tt, with_delete_calls (delete_calls w ++ ids) w).
Proof.
  induction ids as [| i ids IH]; intros w.
  { cbn. rewrite app_nil_r, with_delete_calls_same. reflexivity. }
  cbn [for_each]. unfold bind at 1 2. rewrite delete_file_run.
  unfold ret at 1. rewrite IH. cbn [with_delete_calls delete_calls].
  rewrite <- app_assoc. reflexivity.
Qed.

(** The whole pass, in terms of its enumeration. *)
Lemma remove_duplicate_files_run w :
  remove_duplicate_files w =
    match fetch_pages (while_fuel w) None [] w with
    | (inr catalog, w1) =>
        (inr VNone,
         with_delete_calls (delete_calls w1 ++ repeated_ids catalog) w1)
    | (inl _, w1) => (inr VNone, w1)
    end.
Proof.
  unfold remove_duplicate_files, try_except, bind.
  destruct (fetch_pages (while_fuel w) None [] w) as [[e | catalog] w1].
  { reflexivity. }
  rewrite <- scan_repeated.
  destruct catalog as [| f catalog].
  { cbn. rewrite app_nil_r, with_delete_calls_same. reflexivity. }
  destruct (scan (f :: catalog)) as [file_names ids].
  cbn [snd]. destruct ids as [| i ids].
  { cbn. rewrite app_nil_r, with_delete_calls_same. reflexivity. }
  rewrite delete_all_run. reflexivity.
Qed.

(** In a catalog whose ids are distinct, an id sits at one place only. *)
Lemma distinct_ids_place catalog (pre pre' suf suf' : list file) (f g : file) :
  NoDup (file_id <$> catalog) ->
  catalog = pre ++ f :: suf -> catalog = pre' ++ g :: suf' ->
  file_id f = file_id g -> pre = pre' /\ f = g.
Proof.
  intros Hnd Hf Hg Hid.
  assert (Hlen : length pre = length pre').
  { apply (NoDup_lookup _ _ _ (file_id f) Hnd).
    - rewrite Hf, list_lookup_fmap, list_lookup_middle by reflexivity.
      reflexivity.
    - rewrite Hg, list_lookup_fmap, list_lookup_middle by reflexivity.
      cbn. congruence. }
  rewrite Hf in Hg. apply app_inj_1 in Hg as [-> Hg]; [| exact Hlen].
  injection Hg as -> _. auto.
Qed.

Lemma first_seen_kept catalog (pre suf : list file) (f : file) :
  NoDup (file_id <$> catalog) ->
  catalog = pre ++ f :: suf ->
  file_name f ∉ file_name <$> pre ->
  file_id f ∉ repeated_ids catalog.
Proof.
  intros Hnd Hcat Hfirst Hin.
  apply repeated_from_elem in Hin as (pre' & g & suf' & Hcat' & Hid & Hname).
  destruct (distinct_ids_place catalog pre pre' suf suf' f g Hnd Hcat Hcat')
    as [-> ->]; [congruence |].
  exact (Hfirst Hname).
Qed.

End DedupRun.

(** ** Claims on enumeration and deduplication *)

(** C1 at its failing input.  The store answers the first request with an
    empty page that carries the token ["t1"], and the second with one record
    and no token.  [list_files] stops at the empty page: it returns the empty
    list after a single request, and the record of the second page is lost.
    The loop of [remove_duplicate_files] on the same store goes on with the
    token and returns the record. *)
Theorem list_files_stops_at_empty_page :
  let w := Sample.world Sample.env_ok Sample.empty_then_one in
  list_files w =
    (inr [], with_list [Sample.page [File Sample.id1 "a"] None] [None] w) /\
  fetch_pages (while_fuel w) None [] w =
    (inr [File Sample.id1 "a"], with_list [] [None; Some "t1"] w).
Proof. split; reflexivity. Qed.



(** C3, as stated, fails: the pass sends two delete requests for the sample
    catalog and returns [None], not the count 2. *)
Lemma dedup_count_counterexample :
  let w := Sample.world Sample.env_ok Sample.catalog_pages in
  length (delete_calls (remove_duplicate_files w).2) = 2%nat /\
  (remove_duplicate_files w).1 = inr VNone /\
  (remove_duplicate_files w).1 <> inr (VInt 2).
Proof.
  intros w. split; [reflexivity |]. split; [reflexivity |].
  intros H. vm_compute in H. discriminate H.
Qed.

(** C3 (amended).  For every catalog the pass returns [None], never a count;
    the number of delete requests it sends is the number of records whose
    name a record before them bears; for an empty catalog it sends none. *)
Theorem dedup_returns_none (pages : list list_response) (w : World)
    (rest : list (exn + list_response)) :
  paginated pages = true ->
  list_script w = (inr <$> pages) ++ rest ->
  let catalog := concat (page_files <$> pages) in
  (remove_duplicate_files w).1 = inr VNone /\
  length (delete_calls (remove_duplicate_files w).2) =
    (length (delete_calls w) + length (repeated_ids catalog))%nat /\
  (catalog = [] ->
   delete_calls (remove_duplicate_files w).2 = delete_calls w).
Proof.
  intros Hpag Hs catalog.
  rewrite remove_duplicate_files_run.
  rewrite (fetch_pages_complete pages Hpag _ _ _ w rest Hs);
    [| enough_fuel Hs].
  cbn [fst snd app with_delete_calls with_list delete_calls].
  fold catalog.
  split; [reflexivity |]. split; [apply length_app |].
  intros ->. cbn. apply app_nil_r.
Qed.

Lemma dedup_returns_none_witness :
  let w := Sample.world Sample.env_ok [Sample.page [] None] in
  (remove_duplicate_files w).1 = inr VNone /\
  delete_calls (remove_duplicate_files w).2 = [].
Proof.
  intros w.
  destruct (dedup_returns_none [ListResponse (Some []) None] w []
              eq_refl eq_refl) as (Hret & _ & Hnone).
  split; [exact Hret | exact (Hnone eq_refl)].
Defined.

(** C5.  [delete_file] returns [True] when the store accepts the request and
    [False] when the request raises, whatever the exception, and never raises
    itself.  The deletion loop therefore sends a request for every collected
    id, whatever the earlier ones did, and the pass returns normally.  With a
    store that refuses [id2] and accepts [id4], both requests are sent. *)
Theorem delete_failure_isolated :
  (forall file_id w,
     (delete_file file_id w).1 =
       inr (bool_decide
              (delete_outcome (env w) (delete_calls w) file_id = None)) /\
     delete_calls (delete_file file_id w).2 = delete_calls w ++ [file_id]) /\
  (forall pages w rest,
     paginated pages = true ->
     list_script w = (inr <$> pages) ++ rest ->
     (remove_duplicate_files w).1 = inr VNone /\
     delete_calls (remove_duplicate_files w).2 =
       delete_calls w ++ repeated_ids (concat (page_files <$> pages))) /\
  (let w := Sample.world Sample.env_ok Sample.catalog_pages in
   delete_outcome (env w) [] Sample.id2 = Some HttpError /\
   delete_outcome (env w) [Sample.id2] Sample.id4 = None /\
   remove_duplicate_files w =
     (inr VNone,
      with_delete_calls [Sample.id2; Sample.id4]
        (with_list [] [None; Some "t1"; Some "t2"] w))).
Proof.
  split; [| split].
  - intros file_id w. rewrite delete_file_run. split; reflexivity.
  - intros pages w rest Hpag Hs.
    rewrite remove_duplicate_files_run.
    rewrite (fetch_pages_complete pages Hpag _ _ _ w rest Hs);
      [| enough_fuel Hs].
    split; reflexivity.
  - repeat split; reflexivity.
Qed.

Lemma delete_failure_isolated_witness :
  let w := Sample.world Sample.env_ok Sample.catalog_pages in
  (remove_duplicate_files w).1 = inr VNone /\
  delete_calls (remove_duplicate_files w).2 = [Sample.id2; Sample.id4].
Proof.
  intros w.
  exact (proj1 (proj2 delete_failure_isolated)
           [ListResponse (Some [File Sample.id1 "a"; File Sample.id2 "a"])
              (Some "t1");
            ListResponse (Some []) (Some "t2");
            ListResponse (Some [File Sample.id3 "b"; File Sample.id4 "a"])
              None]
           w [] eq_refl eq_refl).
Defined.

(** A failed page request ends the enumeration of [remove_duplicate_files]
    with the exception of the request. *)
Lemma fetch_pages_fails (pages : list list_response) :
  Forall (fun p => truthy (nextPageToken p) = true) pages ->
  forall fuel page_token acc w e rest,
    list_script w = (inr <$> pages) ++ inl e :: rest ->
    (length pages < fuel)%nat ->
    fetch_pages fuel page_token acc w =
      (inl e,
       with_list rest
         (list_calls w ++ page_token :: (nextPageToken <$> pages)) w).
Proof.
  induction pages as [| p pages IH];
    intros Htok fuel tok acc w e rest Hs Hfuel;
    (destruct fuel as [| fuel]; [cbn in Hfuel; lia |]);
    cbn [fetch_pages]; unfold bind, files_list; rewrite Hs;
    cbn [fmap list_fmap app].
  { reflexivity. }
  apply Forall_cons in Htok as [Hp Htok]. rewrite Hp. cbn [negb].
  rewrite (IH Htok fuel _ _ _ e rest); [| reflexivity | cbn in Hfuel |- *; lia].
  cbn [with_list list_calls fmap list_fmap]. rewrite <- !app_assoc.
  reflexivity.
Qed.

(** C10.  The pass never raises: whatever the store does, it returns [None].
    When a page request fails during the enumeration, the pass stops there:
    it returns [None] and has sent no delete request. *)
Theorem remove_duplicate_files_never_raises :
  (forall w, (remove_duplicate_files w).1 = inr VNone) /\
  (forall pages e rest w,
     Forall (fun p => truthy (nextPageToken p) = true) pages ->
     list_script w = (inr <$> pages) ++ inl e :: rest ->
     remove_duplicate_files w =
       (inr VNone,
        with_list rest (list_calls w ++ None :: (nextPageToken <$> pages)) w)
     /\ delete_calls (remove_duplicate_files w).2 = delete_calls w).
Proof.
  split.
  - intros w. rewrite remove_duplicate_files_run.
    destruct (fetch_pages (while_fuel w) None [] w) as [[e | catalog] w1];
      reflexivity.
  - intros pages e rest w Htok Hs.
    rewrite remove_duplicate_files_run.
    rewrite (fetch_pages_fails pages Htok _ _ _ w e rest Hs);
      [| enough_fuel Hs].
    split; reflexivity.
Qed.

Lemma remove_duplicate_files_never_raises_witness :
  let w := Sample.world Sample.env_ok Sample.failing_pages in
  (remove_duplicate_files w).1 = inr VNone /\
  delete_calls (remove_duplicate_files w).2 = [].
Proof.
  intros w. split.
  - exact (proj1 remove_duplicate_files_never_raises w).
  - apply (proj2 remove_duplicate_files_never_raises
             [ListResponse (Some [File Sample.id1 "a"; File Sample.id2 "a"])
                (Some "t1")]
             HttpError [] w).
    + repeat constructor.
    + reflexivity.
Defined.

(** ** Transfers *)

Section Transfers.

Implicit Types (w : World) (chunks : list (exn + chunk)).

Lemma string_app_assoc (a b c : string) : (a +:+ b) +:+ c = a +:+ (b +:+ c).
Proof.
  induction a as [| x a IH]; [reflexivity |].
  change (String x ((a +:+ b) +:+ c) = String x (a +:+ (b +:+ c))).
  rewrite IH. reflexivity.
Qed.

Lemma string_app_nil_r (a : string) : a +:+ "" = a.
Proof.
  induction a as [| x a IH]; [reflexivity |].
  change (String x (a +:+ "") = String x a).
  rewrite IH. reflexivity.
Qed.

(** The download loop appends every delivered chunk to the destination and
    shows its percentage, in order; it touches nothing else, and a failure
    leaves what was written. *)
Lemma download_loop_run chunks (path : string) :
  forall w old,
    disk w !! path = Some old ->
    let w' := (download_loop chunks path w).2 in
    (download_loop chunks path w).1 =
      match (delivered chunks).2 with
      | None => inr tt
      | Some e => inl e
      end /\
    disk w' !! path = Some (old +:+ chunk_bytes (delivered chunks).1) /\
    (forall other, other <> path -> disk w' !! other = disk w !! other) /\
    progress_seen w' = progress_seen w ++ (percent <$> (delivered chunks).1) /\
    delete_calls w' = delete_calls w /\
    list_calls w' = list_calls w.
Proof.
  induction chunks as [| [e | c] chunks IH]; intros w old Hold.
  - cbn. rewrite string_app_nil_r, app_nil_r. repeat split; auto.
  - cbn. rewrite string_app_nil_r, app_nil_r. repeat split; auto.
  - cbn [download_loop delivered]. unfold bind, fh_write, log_progress.
    rewrite Hold. cbn [default].
    set (w1 := with_progress _ _).
    assert (Hw1 : disk w1 !! path = Some (old +:+ content c)).
    { cbn. apply lookup_insert_eq. }
    assert (Hother : forall other, other <> path ->
                                   disk w1 !! other = disk w !! other).
    { intros other Hne. cbn. apply lookup_insert_ne. congruence. }
    destruct (done c).
    + cbn. rewrite string_app_nil_r. repeat split; auto.
    + destruct (IH w1 (old +:+ content c) Hw1)
        as (Hres & Hdisk & Hrest & Hseen & Hdel & Hlist).
      destruct (delivered chunks) as [cs r]. cbn [fst snd] in *.
      rewrite Hres, Hdisk, Hseen, Hdel, Hlist.
      cbn [chunk_bytes foldr fmap list_fmap]. fold (chunk_bytes cs).
      rewrite string_app_assoc. subst w1. cbn [progress_seen with_progress].
      rewrite <- app_assoc. repeat split; auto.
      intros other Hne. rewrite Hrest, Hother by exact Hne. reflexivity.
Qed.

(** [download_pdf] on a file the store serves and a destination that can be
    opened: the destination is truncated before the first chunk, then holds
    the chunks delivered, whether the download ended well or not. *)
Lemma download_pdf_run (file_id path : string) w chunks :
  media_outcome (env w) file_id = inr chunks ->
  open_error (env w) path = None ->
  let w' := (download_pdf file_id path w).2 in
  (download_pdf file_id path w).1 = inr VNone /\
  disk w' !! path = Some (chunk_bytes (delivered chunks).1) /\
  progress_seen w' = progress_seen w ++ (percent <$> (delivered chunks).1).
Proof.
  intros Hmedia Hopen.
  unfold download_pdf, try_except, bind, files_get_media, FileIO_wb.
  rewrite Hmedia, Hopen.
  set (w0 := with_disk _ w).
  destruct (download_loop_run chunks path w0 "")
    as (Hres & Hdisk & _ & Hseen & _); [apply lookup_insert_eq |].
  destruct (download_loop chunks path w0) as [[e | []] w1];
    cbn [fst snd] in *; auto.
Qed.

(** A download that cannot start leaves the disk as it was. *)
Lemma download_pdf_not_started (file_id path : string) w :
  (exists e, media_outcome (env w) file_id = inl e) \/
  (exists e, open_error (env w) path = Some e) ->
  download_pdf file_id path w = (inr VNone, w).
Proof.
  unfold download_pdf, try_except, bind, files_get_media, FileIO_wb.
  intros [[e He] | [e He]].
  - rewrite He. reflexivity.
  - destruct (media_outcome (env w) file_id); [reflexivity |].
    rewrite He. reflexivity.
Qed.

Lemma download_pdf_returns (file_id path : string) w :
  (download_pdf file_id path w).1 = inr VNone.
Proof.
  unfold download_pdf, try_except, bind, files_get_media, FileIO_wb.
  destruct (media_outcome (env w) file_id) as [e | chunks]; [reflexivity |].
  destruct (open_error (env w) path) as [e |]; [reflexivity |].
  destruct (download_loop chunks path _) as [[e | []] w1]; reflexivity.
Qed.

Lemma upload_pdf_run (path name : string) w :
  upload_pdf path name w =
    (inr match disk w !! path with
         | Some bytes =>
             match create_outcome (env w) name bytes with
             | inr (Some i) => VStr i
             | _ => VNone
             end
         | None => VNone
         end, w).
Proof.
  unfold upload_pdf, try_except, bind, MediaFileUpload, files_create.
  destruct (disk w !! path) as [bytes |]; [| reflexivity].
  destruct (create_outcome (env w) name bytes) as [e | [i |]]; reflexivity.
Qed.

(** A failed page request makes [list_files] drop what it had listed. *)
Lemma list_files_loop_fails (pages : list list_response) :
  Forall (fun p => truthy (nextPageToken p) = true /\ page_files p <> [])
    pages ->
  forall fuel page_token acc w e rest,
    list_script w = (inr <$> pages) ++ inl e :: rest ->
    (length pages < fuel)%nat ->
    list_files_loop fuel page_token acc w =
      (inl e,
       with_list rest
         (list_calls w ++ page_token :: (nextPageToken <$> pages)) w).
Proof.
  induction pages as [| p pages IH];
    intros Hpages fuel tok acc w e rest Hs Hfuel;
    (destruct fuel as [| fuel]; [cbn in Hfuel; lia |]);
    cbn [list_files_loop]; unfold bind, files_list; rewrite Hs;
    cbn [fmap list_fmap app].
  { reflexivity. }
  apply Forall_cons in Hpages as [[Htok Hne] Hpages].
  change (default [] (files p)) with (page_files p).
  destruct (page_files p) as [| f l]; [congruence |].
  rewrite Htok. cbn [negb].
  rewrite (IH Hpages fuel _ _ _ e rest); [| reflexivity | cbn in Hfuel |- *; lia].
  cbn [with_list list_calls fmap list_fmap]. rewrite <- !app_assoc.
  reflexivity.
Qed.

End Transfers.

(** C4, as stated, fails: none of the three operations raises.  With a store
    whose second page request fails, [list_files] returns the empty list;
    uploading a local file that does not exist returns [None]; a download
    that breaks after its first chunk returns [None]. *)
Lemma failures_propagate_counterexample :
  let w := Sample.world Sample.env_ok Sample.failing_pages in
  list_files w = (inr [], with_list [] [None; Some "t1"] w) /\
  disk w !! "missing.pdf" = None /\
  upload_pdf "missing.pdf" "x.pdf" w = (inr VNone, w) /\
  (delivered Sample.broken_chunks).2 = Some TimeoutError /\
  (download_pdf "broken" "out.pdf" w).1 = inr VNone.
Proof. repeat split; reflexivity. Qed.

(** C4 (amended).  Upload, download and catalog listing absorb every failure:
    each wraps its body in [except Exception], so none of them raises.
    [upload_pdf] returns [None] when the local path cannot be read or the
    store rejects the request; [download_pdf] returns [None] whether the
    fetch succeeds, cannot start, or fails mid-stream; [list_files] returns
    the empty list when a page request fails. *)
Theorem transfers_absorb_failures (w : World) :
  (forall path name, exists v, (upload_pdf path name w).1 = inr v) /\
  (forall path name,
     disk w !! path = None -> (upload_pdf path name w).1 = inr VNone) /\
  (forall path name bytes e,
     disk w !! path = Some bytes ->
     create_outcome (env w) name bytes = inl e ->
     (upload_pdf path name w).1 = inr VNone) /\
  (forall file_id path, (download_pdf file_id path w).1 = inr VNone) /\
  (exists l, (list_files w).1 = inr l) /\
  (forall pages e rest,
     Forall (fun p => truthy (nextPageToken p) = true /\ page_files p <> [])
       pages ->
     list_script w = (inr <$> pages) ++ inl e :: rest ->
     (list_files w).1 = inr []).
Proof.
  split; [| split; [| split; [| split; [| split]]]].
  - intros path name. rewrite upload_pdf_run. eauto.
  - intros path name Hnone. rewrite upload_pdf_run, Hnone. reflexivity.
  - intros path name bytes e Hsome Hrej.
    rewrite upload_pdf_run, Hsome, Hrej. reflexivity.
  - intros file_id path. apply download_pdf_returns.
  - unfold list_files, try_except.
    destruct (list_files_loop (while_fuel w) None [] w) as [[e | l] w1]; eauto.
  - intros pages e rest Hpages Hs.
    unfold list_files, try_except.
    rewrite (list_files_loop_fails pages Hpages _ _ _ w e rest Hs);
      [reflexivity | enough_fuel Hs].
Qed.

Lemma transfers_absorb_failures_witness :
  let w := Sample.world Sample.env_ok Sample.failing_pages in
  (upload_pdf "missing.pdf" "x.pdf" w).1 = inr VNone /\
  (list_files w).1 = inr [].
Proof.
  intros w. split.
  - apply (proj1 (proj2 (transfers_absorb_failures w))). reflexivity.
  - apply (proj2 (proj2 (proj2 (proj2 (proj2 (transfers_absorb_failures w)))))
             [ListResponse (Some [File Sample.id1 "a"; File Sample.id2 "a"])
                (Some "t1")]
             HttpError []).
    + repeat constructor. discriminate.
    + reflexivity.
Defined.

(** ** Quota *)

Lemma space_field_raises (field : option pyval) (e : exn) :
  space_field field = inl e -> isinstance e HttpError_ = false.
Proof.
  unfold space_field. destruct (negb _); [| discriminate].
  intros He. apply convert_bytes_raises in He as [[_ ->] | [-> _]]; reflexivity.
Qed.

Lemma get_drive_info_run (w : World) :
  get_drive_info w =
    (match about_outcome (env w) with
     | inl e => if isinstance e HttpError_ then inr ∅ else inl e
     | inr drive_info =>
         let quota := default (Quota None None) (storageQuota drive_info) in
         let? total_space := space_field (limit quota) in
         let? used_space := space_field (usage quota) in
         inr {[ "total_space" := total_space; "used_space" := used_space ]}
     end, w).
Proof.
  unfold get_drive_info, try_except, bind, about_get, lift.
  destruct (about_outcome (env w)) as [e | drive_info].
  { destruct (isinstance e HttpError_); reflexivity. }
  cbn zeta.
  destruct (space_field (limit _)) as [e | total] eqn:Htotal.
  { rewrite (space_field_raises _ e Htotal). reflexivity. }
  destruct (space_field (usage _)) as [e | used] eqn:Hused.
  { cbn [ebind]. rewrite (space_field_raises _ e Hused). reflexivity. }
  reflexivity.
Qed.

(** C9, as stated, fails: the reporter catches [HttpError] only.  When the
    read of the store metadata times out, the exception reaches the
    caller. *)
Lemma get_drive_info_counterexample :
  about_outcome Sample.env_timeout = inl TimeoutError /\
  (get_drive_info (Sample.world Sample.env_timeout [])).1 = inl TimeoutError.
Proof. split; reflexivity. Qed.

(** C9 (amended).  When the read of the store metadata raises [HttpError],
    [get_drive_info] returns the empty snapshot; any other exception of the
    read reaches the caller.  When the read succeeds, each field of the
    result is formatted on its own: ["N/A"] when the store omits [limit]
    (resp. [usage]), the size formatter's string for the value otherwise;
    an exception of the size formatter reaches the caller.  The world is
    left as it was. *)
Theorem get_drive_info_outcomes (w : World) :
  (about_outcome (env w) = inl HttpError ->
   get_drive_info w = (inr ∅, w)) /\
  (forall e, about_outcome (env w) = inl e -> e <> HttpError ->
     get_drive_info w = (inl e, w)) /\
  (forall drive_info total_space used_space,
     about_outcome (env w) = inr drive_info ->
     let quota := default (Quota None None) (storageQuota drive_info) in
     space_field (limit quota) = inr total_space ->
     space_field (usage quota) = inr used_space ->
     get_drive_info w =
       (inr {[ "total_space" := total_space; "used_space" := used_space ]},
        w)) /\
  (forall drive_info e,
     about_outcome (env w) = inr drive_info ->
     let quota := default (Quota None None) (storageQuota drive_info) in
     space_field (limit quota) = inl e \/
     ((exists total_space, space_field (limit quota) = inr total_space) /\
      space_field (usage quota) = inl e) ->
     get_drive_info w = (inl e, w)) /\
  space_field None = inr "N/A" /\
  (forall v, v <> VStr "N/A" -> space_field (Some v) = convert_bytes v).
Proof.
  split; [| split; [| split; [| split; [| split]]]].
  - intros Habout. rewrite get_drive_info_run, Habout. reflexivity.
  - intros e Habout Hne. rewrite get_drive_info_run, Habout.
    destruct e; try reflexivity. congruence.
  - intros drive_info total used Habout quota Htotal Hused.
    rewrite get_drive_info_run, Habout. cbn zeta. fold quota.
    rewrite Htotal, Hused. reflexivity.
  - intros drive_info e Habout quota Hraise.
    rewrite get_drive_info_run, Habout. cbn zeta. fold quota.
    destruct Hraise as [Htotal | [[total Htotal] Hused]].
    + rewrite Htotal. reflexivity.
    + rewrite Htotal, Hused. reflexivity.
  - reflexivity.
  - intros v Hv. unfold space_field. cbn [from_option].
    destruct v as [| b | z | s]; try reflexivity.
    cbn [eq_str id]. rewrite bool_decide_eq_false_2 by congruence. reflexivity.
Qed.

Lemma get_drive_info_outcomes_witness :
  let w := Sample.world Sample.env_ok [] in
  get_drive_info w =
    (inr {[ "total_space" := "N/A"; "used_space" := "1.50 KB" ]}, w).
Proof.
  intros w.
  apply (proj1 (proj2 (proj2 (get_drive_info_outcomes w)))
           (About (Some (Quota None (Some (VStr "1536")))))).
  - reflexivity.
  - reflexivity.
  - vm_compute. reflexivity.
Defined.

(** * Further properties *)

(** ** More on deduplication *)

Section DedupMore.

Implicit Types (catalog pre suf : list file) (seen : list string).

Lemma repeated_from_nil catalog :
  forall seen,
    repeated_from seen catalog = [] <->
    NoDup (file_name <$> catalog) /\
    (forall n, n ∈ file_name <$> catalog -> n ∉ seen).
Proof.
  induction catalog as [| f catalog IH]; intros seen.
  { cbn. split; [intros _; split; [constructor | intros n Hn; inversion Hn] | auto]. }
  cbn [repeated_from fmap list_fmap]. rewrite NoDup_cons.
  destruct (decide (file_name f ∈ seen)) as [Hin | Hout].
  - split; [discriminate |]. intros [_ Hfresh]. exfalso.
    apply (Hfresh (file_name f)); [apply list_elem_of_here | exact Hin].
  - cbn [app]. rewrite IH. split.
    + intros [Hnd Hfresh]. split; [split; [| exact Hnd] |].
      * intros Hf. apply (Hfresh _ Hf). apply elem_of_app. right.
        apply list_elem_of_here.
      * intros n Hn Hseen. apply elem_of_cons in Hn as [-> | Hn]; [tauto |].
        apply (Hfresh n Hn). apply elem_of_app. auto.
    + intros [[Hf Hnd] Hfresh]. split; [exact Hnd |].
      intros n Hn Hseen. apply elem_of_app in Hseen as [Hseen | Hseen].
      * apply (Hfresh n); [apply list_elem_of_further, Hn | exact Hseen].
      * apply list_elem_of_singleton in Hseen as ->. exact (Hf Hn).
Qed.

Lemma repeated_ids_nil catalog :
  repeated_ids catalog = [] <-> NoDup (file_name <$> catalog).
Proof.
  unfold repeated_ids. rewrite repeated_from_nil. split; [tauto |].
  intros Hnd. split; [exact Hnd |]. intros n _ Hn. inversion Hn.
Qed.

(** Every record adds either a collected id or a new name. *)
Lemma repeated_from_count catalog :
  forall seen,
    (length (repeated_from seen catalog)
     + size (list_to_set (C := gset string)
               (seen ++ (file_name <$> catalog)))
     = length catalog + size (list_to_set (C := gset string) seen))%nat.
Proof.
  induction catalog as [| f catalog IH]; intros seen.
  { cbn. rewrite app_nil_r. reflexivity. }
  cbn [repeated_from fmap list_fmap length].
  rewrite length_app.
  replace (seen ++ file_name f :: (file_name <$> catalog))
    with ((seen ++ [file_name f]) ++ (file_name <$> catalog))
    by (rewrite <- app_assoc; reflexivity).
  pose proof (IH (seen ++ [file_name f])) as Hrec.
  destruct (decide (file_name f ∈ seen)) as [Hin | Hout].
  - assert (Hsame : list_to_set (C := gset string) (seen ++ [file_name f])
                    = list_to_set seen).
    { apply set_eq. intros n.
      rewrite !elem_of_list_to_set, elem_of_app, list_elem_of_singleton.
      split; [intros [? | ->]; assumption | auto]. }
    rewrite Hsame in Hrec. cbn [length]. lia.
  - assert (Hsize : size (list_to_set (C := gset string) (seen ++ [file_name f]))
                    = S (size (list_to_set (C := gset string) seen))).
    { rewrite list_to_set_app_L. cbn [list_to_set].
      rewrite size_union, size_union, size_singleton, size_empty; [lia | |].
      - intros n Hn. rewrite elem_of_empty. tauto.
      - intros n Hn1 Hn2. rewrite elem_of_list_to_set in Hn1.
        apply elem_of_union in Hn2 as [Hn2 | Hn2].
        + apply elem_of_singleton in Hn2 as ->. exact (Hout Hn1).
        + revert Hn2. apply not_elem_of_empty. }
    rewrite Hsize in Hrec. cbn [length]. lia.
Qed.

(** With distinct ids, a record stays exactly when no record before it bears
    its name. *)
Lemma survivor_iff catalog pre suf (f : file) :
  NoDup (file_id <$> catalog) ->
  catalog = pre ++ f :: suf ->
  file_id f ∈ repeated_ids catalog <-> file_name f ∈ file_name <$> pre.
Proof.
  intros Hnd Hcat. split.
  - intros Hin. destruct (decide (file_name f ∈ file_name <$> pre)); [assumption |].
    exfalso. exact (first_seen_kept catalog pre suf f Hnd Hcat n Hin).
  - intros Hname. apply (repeated_from_elem (file_id f) catalog []).
    exists pre, f, suf. auto.
Qed.

Lemma survivors_distinct catalog :
  NoDup (file_id <$> catalog) ->
  forall pre suf,
    catalog = pre ++ suf ->
    let kept := filter (fun f => file_id f ∉ repeated_ids catalog) suf in
    NoDup (file_name <$> kept) /\
    (forall n, n ∈ file_name <$> kept -> n ∉ file_name <$> pre).
Proof.
  intros Hnd pre suf. revert pre.
  induction suf as [| f suf IH]; intros pre Hcat kept.
  { subst kept. cbn. split; [constructor | intros n Hn; inversion Hn]. }
  destruct (IH (pre ++ [f])) as [Hkept Hfresh].
  { rewrite <- app_assoc. exact Hcat. }
  subst kept. rewrite filter_cons.
  destruct (decide (file_id f ∉ repeated_ids catalog)) as [Hstay | Hgone].
  - cbn [fmap list_fmap]. split.
    + apply NoDup_cons. split; [| exact Hkept].
      intros Hn. apply (Hfresh _ Hn).
      rewrite fmap_app, elem_of_app. right. apply list_elem_of_here.
    + intros n Hn Hpre. apply elem_of_cons in Hn as [-> | Hn].
      * apply Hstay. apply (survivor_iff catalog pre suf f Hnd Hcat). exact Hpre.
      * apply (Hfresh n Hn). rewrite fmap_app, elem_of_app. auto.
  - split; [exact Hkept |].
    intros n Hn Hpre. apply (Hfresh n Hn).
    rewrite fmap_app, elem_of_app. auto.
Qed.

End DedupMore.

Section DedupExtras.

Implicit Types (catalog pre suf : list file) (w : World).
Implicit Types (pages : list list_response).

(** The pass as a whole, on a store that serves [pages]. *)
Lemma remove_duplicate_files_served pages w rest :
  paginated pages = true ->
  list_script w = (inr <$> pages) ++ rest ->
  remove_duplicate_files w =
    (inr VNone,
     with_delete_calls
       (delete_calls w ++ repeated_ids (concat (page_files <$> pages)))
       (with_list rest (list_calls w ++ tokens_sent pages) w)).
Proof.
  intros Hpag Hs. rewrite remove_duplicate_files_run.
  rewrite (fetch_pages_complete pages Hpag _ _ _ w rest Hs);
    [reflexivity | enough_fuel Hs].
Qed.

Lemma first_id_is_Some catalog (n : string) :
  is_Some (first_id n catalog) <-> n ∈ file_name <$> catalog.
Proof.
  unfold first_id. rewrite fmap_is_Some, list_elem_of_fmap.
  split.
  - intros [f Hf]. apply head_Some_elem_of in Hf.
    apply list_elem_of_filter in Hf as [Hn Hf]. eauto.
  - intros (f & -> & Hf).
    destruct (filter (fun g => file_name g = file_name f) catalog)
      as [| g l] eqn:Hfilter; [| cbn; eauto].
    exfalso. apply (not_elem_of_nil f). rewrite <- Hfilter.
    apply list_elem_of_filter. auto.
Qed.

End DedupExtras.

(** X1.  A pass over a served catalog sends no delete request exactly when
    the names of the catalog are pairwise distinct. *)
Theorem no_request_iff_distinct_names (pages : list list_response)
    (w : World) (rest : list (exn + list_response)) :
  paginated pages = true ->
  list_script w = (inr <$> pages) ++ rest ->
  delete_calls (remove_duplicate_files w).2 = delete_calls w <->
  NoDup (file_name <$> concat (page_files <$> pages)).
Proof.
  intros Hpag Hs. rewrite (remove_duplicate_files_served pages w rest Hpag Hs).
  cbn [snd with_delete_calls delete_calls].
  rewrite <- repeated_ids_nil. split.
  - intros Heq. apply (app_inv_head (delete_calls w)).
    rewrite app_nil_r. exact Heq.
  - intros ->. apply app_nil_r.
Qed.

Lemma no_request_iff_distinct_names_witness :
  let w := Sample.world Sample.env_ok
             [Sample.page [File Sample.id1 "a"; File Sample.id3 "b"] None] in
  delete_calls (remove_duplicate_files w).2 = [].
Proof.
  intros w.
  apply (no_request_iff_distinct_names
           [ListResponse (Some [File Sample.id1 "a"; File Sample.id3 "b"]) None]
           w [] eq_refl eq_refl).
  apply (bool_decide_unpack _). vm_compute. exact I.
Defined.

(** X2.  The number of delete requests of a pass is the number of records of
    the catalog less the number of distinct names in it; the map of the scan
    has one key per distinct name. *)
Theorem dedup_request_count (pages : list list_response) (w : World)
    (rest : list (exn + list_response)) :
  paginated pages = true ->
  list_script w = (inr <$> pages) ++ rest ->
  let catalog := concat (page_files <$> pages) in
  let names : gset string := list_to_set (file_name <$> catalog) in
  (length (delete_calls (remove_duplicate_files w).2) + size names
   = length (delete_calls w) + length catalog)%nat /\
  dom (scan catalog).1 = names.
Proof.
  intros Hpag Hs catalog names.
  rewrite (remove_duplicate_files_served pages w rest Hpag Hs).
  cbn [snd with_delete_calls delete_calls]. fold catalog. split.
  - rewrite length_app. pose proof (repeated_from_count catalog []) as Hcount.
    cbn [app list_to_set] in Hcount. rewrite size_empty in Hcount.
    unfold repeated_ids. subst names. lia.
  - apply set_eq. intros n. subst names.
    rewrite elem_of_dom, scan_first, first_id_is_Some, elem_of_list_to_set.
    reflexivity.
Qed.

Lemma dedup_request_count_witness :
  let w := Sample.world Sample.env_ok Sample.catalog_pages in
  (length (delete_calls (remove_duplicate_files w).2)
   + size (list_to_set (C := gset string) (file_name <$> Sample.catalog))
   = 0 + 4)%nat.
Proof.
  intros w.
  exact (proj1 (dedup_request_count
                  [ListResponse (Some [File Sample.id1 "a"; File Sample.id2 "a"])
                     (Some "t1");
                   ListResponse (Some []) (Some "t2");
                   ListResponse (Some [File Sample.id3 "b"; File Sample.id4 "a"])
                     None]
                  w [] eq_refl eq_refl)).
Defined.

(** X3.  In a catalog whose ids are distinct, the records that are left once
    the collected ids are deleted are the first records of each name: a
    record stays exactly when no record before it bears its name.  Every
    name of the catalog is still there, once, and a second pass over what is
    left collects nothing. *)
Theorem dedup_leaves_first_of_each_name (catalog : list file) :
  NoDup (file_id <$> catalog) ->
  (forall f, f ∈ survivors catalog <->
     exists pre suf, catalog = pre ++ f :: suf /\
                     file_name f ∉ file_name <$> pre) /\
  NoDup (file_name <$> survivors catalog) /\
  (forall n, n ∈ file_name <$> survivors catalog <->
             n ∈ file_name <$> catalog) /\
  repeated_ids (survivors catalog) = [].
Proof.
  intros Hnd.
  assert (Hstay : forall f, f ∈ survivors catalog <->
            exists pre suf, catalog = pre ++ f :: suf /\
                            file_name f ∉ file_name <$> pre).
  { intros f. unfold survivors. rewrite list_elem_of_filter. split.
    - intros [Hkept Hin]. apply list_elem_of_split in Hin as (pre & suf & Hcat).
      exists pre, suf. split; [exact Hcat |].
      intros Hname. apply Hkept.
      apply (survivor_iff catalog pre suf f Hnd Hcat). exact Hname.
    - intros (pre & suf & Hcat & Hfirst). split.
      + exact (first_seen_kept catalog pre suf f Hnd Hcat Hfirst).
      + rewrite Hcat. apply elem_of_app. right. apply list_elem_of_here. }
  assert (Hdistinct : NoDup (file_name <$> survivors catalog)).
  { exact (proj1 (survivors_distinct catalog Hnd [] catalog eq_refl)). }
  split; [exact Hstay |]. split; [exact Hdistinct |].
  split; [| apply repeated_ids_nil; exact Hdistinct].
  intros n. rewrite !list_elem_of_fmap. split.
  - intros (f & -> & Hf). exists f. split; [reflexivity |].
    unfold survivors in Hf. apply list_elem_of_filter in Hf. tauto.
  - intros (f & -> & Hf).
    assert (Hn : file_name f ∈ file_name <$> catalog).
    { apply list_elem_of_fmap. eauto. }
    apply list_elem_of_split_l in Hn as (names_pre & names_suf & Hnames & Hfirst).
    apply fmap_app_inv in Hnames as (pre & tail & -> & Htail & Hcat).
    symmetry in Htail.
    apply fmap_cons_inv in Htail as (g & suf & Hg & -> & ->).
    exists g. split; [exact Hg |]. apply Hstay.
    exists pre, suf. split; [exact Hcat |]. rewrite <- Hg. exact Hfirst.
Qed.

Lemma dedup_leaves_first_of_each_name_witness :
  survivors Sample.catalog = [File Sample.id1 "a"; File Sample.id3 "b"] /\
  repeated_ids (survivors Sample.catalog) = [].
Proof.
  split; [vm_compute; reflexivity |].
  apply (dedup_leaves_first_of_each_name Sample.catalog).
  apply (bool_decide_unpack _). vm_compute. exact I.
Defined.

(** X4.  On a store that serves a catalog in [n] pages, the pass sends
    exactly [n] list requests, the first without a token and each next one
    with the token of the page before, and leaves the later answers of the
    store unread. *)
Theorem dedup_list_requests (pages : list list_response) (w : World)
    (rest : list (exn + list_response)) :
  paginated pages = true ->
  list_script w = (inr <$> pages) ++ rest ->
  let w' := (remove_duplicate_files w).2 in
  list_calls w' = list_calls w ++ None :: (nextPageToken <$> removelast pages) /\
  length (list_calls w') = (length (list_calls w) + length pages)%nat /\
  list_script w' = rest.
Proof.
  intros Hpag Hs.
  rewrite (remove_duplicate_files_served pages w rest Hpag Hs).
  cbn [snd with_delete_calls with_list list_calls list_script].
  split; [reflexivity |]. split; [| reflexivity].
  rewrite length_app. cbn [length tokens_sent]. rewrite length_fmap.
  destruct pages as [| p pages]; [discriminate Hpag |].
  assert (Hlen : length (removelast (p :: pages)) = length pages).
  { clear. revert p. induction pages as [| q pages IH]; intros p; [reflexivity |].
    cbn [removelast length] in *. rewrite IH. reflexivity. }
  rewrite Hlen. cbn [length]. lia.
Qed.

Lemma dedup_list_requests_witness :
  let w := Sample.world Sample.env_ok Sample.catalog_pages in
  list_calls (remove_duplicate_files w).2 = [None; Some "t1"; Some "t2"].
Proof.
  intros w.
  exact (proj1 (dedup_list_requests
                  [ListResponse (Some [File Sample.id1 "a"; File Sample.id2 "a"])
                     (Some "t1");
                   ListResponse (Some []) (Some "t2");
                   ListResponse (Some [File Sample.id3 "b"; File Sample.id4 "a"])
                     None]
                  w [] eq_refl eq_refl)).
Defined.

(** ** More on listing *)

Lemma list_files_loop_until_empty (pages : list list_response) :
  paginated pages = true ->
  forall fuel page_token acc w rest,
    list_script w = (inr <$> pages) ++ rest ->
    (length pages <= fuel)%nat ->
    (list_files_loop fuel page_token acc w).1 =
      inr (acc ++ concat (page_files <$> until_empty pages)) /\
    list_calls (list_files_loop fuel page_token acc w).2 =
      list_calls w ++
      take (S (length (until_empty pages)))
        (page_token :: (nextPageToken <$> removelast pages)).
Proof.
  induction pages as [| p pages IH]; [discriminate |].
  intros Hpag fuel tok acc w rest Hs Hfuel.
  destruct fuel as [| fuel]; [cbn in Hfuel; lia |].
  cbn [list_files_loop until_empty]. unfold bind, files_list. rewrite Hs.
  cbn [fmap list_fmap app].
  assert (Hcopy : forall l : list file,
             map (fun f => File (file_id f) (file_name f)) l = l).
  { intros l. induction l as [| [i n] l IHl]; [reflexivity |].
    cbn. rewrite IHl. reflexivity. }
  change (default [] (files p)) with (page_files p).
  destruct (page_files p) as [| f l] eqn:Hpf.
  { cbn. rewrite app_nil_r. split; reflexivity. }
  rewrite Hcopy.
  destruct pages as [| p' pages].
  - cbn [paginated] in Hpag. rewrite Hpag.
    cbn. rewrite Hpf, !app_nil_r. split; reflexivity.
  - cbn [paginated] in Hpag. apply andb_true_iff in Hpag as [Htok Hpag].
    rewrite Htok. cbn [negb fmap list_fmap app].
    destruct (IH Hpag fuel (nextPageToken p) (acc ++ f :: l)
                (with_list ((inr <$> p' :: pages) ++ rest)
                   (list_calls w ++ [tok]) w) rest)
      as [Hres Hcalls]; [reflexivity | cbn in Hfuel |- *; lia |].
    cbn [fmap list_fmap app] in Hres, Hcalls. rewrite Hres, Hcalls.
    cbn [concat fmap list_fmap removelast with_list list_calls length take].
    rewrite Hpf, <- !app_assoc. split; reflexivity.
Qed.

Lemma until_empty_prefix (pages : list list_response) :
  until_empty pages `prefix_of` pages.
Proof.
  induction pages as [| p pages IH]; [reflexivity |].
  cbn [until_empty]. destruct (page_files p).
  - apply prefix_nil.
  - apply prefix_cons, IH.
Qed.

(** X5.  On a store that serves a catalog in pages, [list_files] returns the
    records of the pages up to the first empty one, and sends no request
    after that page.  Its result is the beginning of the catalog: what is
    missing are the records of the pages after the first empty one, so the
    result is the whole catalog exactly when those pages hold no record. *)
Theorem list_files_until_empty (pages : list list_response) (w : World)
    (rest : list (exn + list_response)) :
  paginated pages = true ->
  list_script w = (inr <$> pages) ++ rest ->
  let listed := concat (page_files <$> until_empty pages) in
  (list_files w).1 = inr listed /\
  listed `prefix_of` concat (page_files <$> pages) /\
  list_calls (list_files w).2 =
    list_calls w ++
    take (S (length (until_empty pages))) (tokens_sent pages) /\
  (exists dropped,
     pages = until_empty pages ++ dropped /\
     concat (page_files <$> pages) =
       listed ++ concat (page_files <$> dropped) /\
     (listed = concat (page_files <$> pages) <->
      concat (page_files <$> dropped) = [])).
Proof.
  intros Hpag Hs listed.
  destruct (list_files_loop_until_empty pages Hpag (while_fuel w) None [] w
              rest Hs) as [Hres Hcalls]; [enough_fuel Hs |].
  unfold list_files, try_except.
  destruct (list_files_loop (while_fuel w) None [] w) as [[e | l] w1];
    cbn [fst snd] in Hres, Hcalls; [discriminate Hres |].
  injection Hres as ->. cbn [fst snd].
  destruct (until_empty_prefix pages) as [dropped Hdropped].
  assert (Hcat : concat (page_files <$> pages) =
                 listed ++ concat (page_files <$> dropped)).
  { subst listed. rewrite Hdropped at 1. rewrite fmap_app, concat_app.
    reflexivity. }
  split; [reflexivity |].
  split; [rewrite Hcat; apply prefix_app_r; reflexivity |].
  split; [exact Hcalls |].
  exists dropped. split; [exact Hdropped |]. split; [exact Hcat |].
  rewrite Hcat. split.
  - intros Heq. apply (app_inv_head listed). rewrite app_nil_r.
    symmetry. exact Heq.
  - intros ->. symmetry. apply app_nil_r.
Qed.

Lemma list_files_until_empty_witness :
  let w := Sample.world Sample.env_ok Sample.catalog_pages in
  (list_files w).1 = inr [File Sample.id1 "a"; File Sample.id2 "a"].
Proof.
  intros w.
  exact (proj1 (list_files_until_empty
                  [ListResponse (Some [File Sample.id1 "a"; File Sample.id2 "a"])
                     (Some "t1");
                   ListResponse (Some []) (Some "t2");
                   ListResponse (Some [File Sample.id3 "b"; File Sample.id4 "a"])
                     None]
                  w [] eq_refl eq_refl)).
Defined.

(** ** More on the size formatter *)

Section FormatterMore.

Lemma round_half_even_mono (n n' d : Z) :
  0 <= n <= n' -> 0 < d -> round_half_even n d <= round_half_even n' d.
Proof.
  intros Hn Hd.
  pose proof (Z.div_le_mono n n' d Hd ltac:(lia)) as Hq.
  pose proof (round_half_even_bounds n d ltac:(lia) Hd) as Hb.
  pose proof (round_half_even_bounds n' d ltac:(lia) Hd) as Hb'.
  destruct (Z.eq_dec (n / d) (n' / d)) as [Heq | Hne]; [| lia].
  pose proof (Z.div_mod n d ltac:(lia)) as Hdm.
  pose proof (Z.div_mod n' d ltac:(lia)) as Hdm'.
  assert (Hr : n mod d <= n' mod d) by nia.
  unfold round_half_even in *. rewrite <- Heq in *.
  destruct ((d <? 2 * (n mod d)) || ((2 * (n mod d) =? d) && Z.odd (n / d)))
    eqn:Hup; [| destruct (_ || _); lia].
  assert (Hup' : (d <? 2 * (n' mod d))
                 || ((2 * (n' mod d) =? d) && Z.odd (n / d)) = true).
  { apply orb_true_iff in Hup as [Hup | Hup].
    - apply Z.ltb_lt in Hup. apply orb_true_iff. left. apply Z.ltb_lt. lia.
    - apply andb_true_iff in Hup as [Hup Hodd]. apply Z.eqb_eq in Hup.
      destruct (Z.ltb_spec d (2 * (n' mod d))); [reflexivity |].
      cbn [orb]. rewrite Hodd, andb_true_r. apply Z.eqb_eq. lia. }
  rewrite Hup'. lia.
Qed.

(** Below [2 ** 53] the formatter shows the byte count divided by its unit
    and rounded to the nearest hundredth. *)
Lemma convert_bytes_unit (b u : Z) (s : string) :
  (u, s) ∈ units ->
  u <= b -> b < 1024 * u \/ u = 1024 * 1024 * 1024 -> b < 2 ^ 53 ->
  convert_bytes (VInt b) = inr (fixed2 (round_half_even (100 * b) u) +:+ s).
Proof.
  intros Hu Hlo Hhi Hb.
  assert (Hpos : 0 < u).
  { unfold units in Hu.
    repeat (apply elem_of_cons in Hu as [Hu | Hu]; [injection Hu as -> -> |]);
      try (apply elem_of_nil in Hu; destruct Hu); lia. }
  destruct (convert_bytes_finite b)
    as [[H1 _] | [[H2 Hres] | [[H3 Hres] | [H4 (x & _ & Hres & Hx)]]]].
  { split; [pose proof str_limit_large; lia |].
    eapply Z.lt_trans; [exact Hb | reflexivity]. }
  all: unfold units in Hu;
    repeat (apply elem_of_cons in Hu as [Hu | Hu];
            [injection Hu as -> -> |]);
    try (apply elem_of_nil in Hu; destruct Hu);
    try lia.
  - exact Hres.
  - exact Hres.
  - rewrite Hres. unfold format_2f. rewrite (Hx Hb). reflexivity.
Qed.




End FormatterMore.

(** X6.  For a byte count from 1024 up to [2 ** 53], the number the
    formatter shows is the count divided by the unit of its bracket, off by
    at most half a hundredth. *)
Theorem convert_bytes_accuracy (b : Z) :
  1024 <= b < 2 ^ 53 ->
  exists u s h,
    (u, s) ∈ units /\ u <= b /\ (b < 1024 * u \/ u = 1024 * 1024 * 1024) /\
    convert_bytes (VInt b) = inr (fixed2 h +:+ s) /\
    2 * Z.abs (u * h - 100 * b) <= u.
Proof.
  intros [Hlo Hhi].
  assert (Hunit : exists u s, (u, s) ∈ units /\ 0 < u /\ u <= b /\
                    (b < 1024 * u \/ u = 1024 * 1024 * 1024)).
  { unfold units.
    destruct (Z.lt_ge_cases b (1024 * 1024));
      [exists 1024, " KB" |
       destruct (Z.lt_ge_cases b (1024 * 1024 * 1024));
       [exists (1024 * 1024), " MB" | exists (1024 * 1024 * 1024), " GB"]].
    all: split; [repeat constructor | lia]. }
  destruct Hunit as (u & s & Hu & Hpos & Hub & Hcap).
  exists u, s, (round_half_even (100 * b) u).
  split; [exact Hu |]. split; [exact Hub |]. split; [exact Hcap |].
  split; [apply convert_bytes_unit; assumption |].
  pose proof (round_half_even_nearest (100 * b) u ltac:(lia) Hpos). lia.
Qed.

Lemma convert_bytes_accuracy_witness :
  exists u s h,
    (u, s) ∈ units /\ u <= 1536 /\
    (1536 < 1024 * u \/ u = 1024 * 1024 * 1024) /\
    convert_bytes (VInt 1536) = inr (fixed2 h +:+ s) /\
    2 * Z.abs (u * h - 100 * 1536) <= u.
Proof.
  apply (convert_bytes_accuracy 1536). split.
  - intros H. discriminate H.
  - reflexivity.
Defined.

(** X7.  In the KB and MB brackets the number shown lies between 1.00 and
    1024.00, both reached: the top of a bracket rounds up to ["1024.00 KB"]
    (from 1048571 bytes on) and ["1024.00 MB"] (from 1073736582 bytes on)
    instead of moving to the next unit. *)
Theorem convert_bytes_display_range (b : Z) :
  (1024 <= b < 1024 * 1024 ->
   exists h, convert_bytes (VInt b) = inr (fixed2 h +:+ " KB") /\
             100 <= h <= 102400 /\ (h = 102400 <-> 1048571 <= b)) /\
  (1024 * 1024 <= b < 1024 * 1024 * 1024 ->
   exists h, convert_bytes (VInt b) = inr (fixed2 h +:+ " MB") /\
             100 <= h <= 102400 /\ (h = 102400 <-> 1073736582 <= b)).
Proof.
  split; intros [Hlo Hhi].
  - exists (round_half_even (100 * b) 1024).
    split; [apply convert_bytes_unit;
            [unfold units; repeat constructor | lia | lia | lia] |].
    pose proof (round_half_even_nearest (100 * b) 1024 ltac:(lia) ltac:(lia)).
    lia.
  - exists (round_half_even (100 * b) (1024 * 1024)).
    split; [apply convert_bytes_unit;
            [unfold units; repeat constructor | lia | lia | lia] |].
    pose proof (round_half_even_nearest (100 * b) (1024 * 1024)
                  ltac:(lia) ltac:(lia)).
    lia.
Qed.

Lemma convert_bytes_display_range_witness :
  exists h, convert_bytes (VInt 1048575) = inr (fixed2 h +:+ " KB") /\
            100 <= h <= 102400 /\ (h = 102400 <-> 1048571 <= 1048575).
Proof.
  apply (proj1 (convert_bytes_display_range 1048575)). split.
  - intros H. discriminate H.
  - reflexivity.
Defined.

(** X8.  Within one unit the number shown never goes down as the byte count
    goes up (below [2 ** 53]). *)
Theorem convert_bytes_monotone (b b' u : Z) (s : string) :
  (u, s) ∈ units ->
  u <= b <= b' -> b' < 1024 * u \/ u = 1024 * 1024 * 1024 -> b' < 2 ^ 53 ->
  exists h h',
    convert_bytes (VInt b) = inr (fixed2 h +:+ s) /\
    convert_bytes (VInt b') = inr (fixed2 h' +:+ s) /\
    h <= h'.
Proof.
  intros Hu [Hlo Hle] Hcap Hb'.
  assert (Hpos : 0 < u).
  { unfold units in Hu.
    repeat (apply elem_of_cons in Hu as [Hu | Hu]; [injection Hu as -> -> |]);
      try (apply elem_of_nil in Hu; destruct Hu); lia. }
  exists (round_half_even (100 * b) u), (round_half_even (100 * b') u).
  split; [apply convert_bytes_unit; try assumption; lia |].
  split; [apply convert_bytes_unit; try assumption; lia |].
  apply round_half_even_mono; lia.
Qed.

Lemma convert_bytes_monotone_witness :
  exists h h',
    convert_bytes (VInt 1536) = inr (fixed2 h +:+ " KB") /\
    convert_bytes (VInt 2048) = inr (fixed2 h' +:+ " KB") /\
    h <= h'.
Proof.
  apply (convert_bytes_monotone 1536 2048 1024 " KB").
  - unfold units. repeat constructor.
  - split; intros H; discriminate H.
  - left. reflexivity.
  - reflexivity.
Defined.

(** ** Decimal strings *)

Section Decimal.


Lemma count_digits_cons (c : ascii) (l : list ascii) :
  count_digits (c :: l) =
    match digit_of c with Some _ => 1 | None => 0 end + count_digits l.
Proof.
  unfold count_digits. rewrite filter_cons.
  destruct (digit_of c) as [d |].
  - rewrite decide_True by eauto. cbn [length]. lia.
  - rewrite decide_False by (intros [? ?]; discriminate). lia.
Qed.






Lemma digit_of_pretty_char (d : N) :
  (d < 10)%N -> digit_of (pretty_N_char d) = Some (Z.of_N d).
Proof.
  intros Hd.
  assert (d = 0 \/ d = 1 \/ d = 2 \/ d = 3 \/ d = 4 \/ d = 5 \/ d = 6
          \/ d = 7 \/ d = 8 \/ d = 9)%N as Hcases by lia.
  decompose [or] Hcases; subst d; reflexivity.
Qed.

Lemma pretty_char_no_space (d : N) : is_space (pretty_N_char d) = false.
Proof. unfold pretty_N_char. repeat case_match; reflexivity. Qed.

(** Reading back the digits [pretty_N_go] writes. *)
Lemma digits_value_pretty (x : N) :
  forall (s : string) (after_digit : bool),
    (0 < x)%N ->
    digits_value 0 after_digit (list_ascii_of_string (pretty_N_go x s)) =
      digits_value (Z.of_N x) true (list_ascii_of_string s).
Proof.
  induction (N.lt_wf_0 x) as [x _ IH]; intros s ad Hx.
  rewrite pretty_N_go_step by exact Hx.
  assert (Hmod : (x `mod` 10 < 10)%N) by (apply N.mod_lt; lia).
  pose proof (N.div_mod x 10%N ltac:(lia)) as Hdm.
  destruct (N.eq_dec (x `div` 10)%N 0%N) as [Hq | Hq].
  - rewrite Hq, pretty_N_go_0.
    cbn [list_ascii_of_string digits_value].
    rewrite digit_of_pretty_char by exact Hmod.
    f_equal. lia.
  - rewrite IH; [| apply N.div_lt; lia | lia].
    cbn [list_ascii_of_string digits_value].
    rewrite digit_of_pretty_char by exact Hmod.
    f_equal. lia.
Qed.

(** A number below [10 ** k] is written with at most [k] digits. *)
Lemma count_digits_pretty (k : nat) :
  forall (x : N) (s : string),
    Z.of_N x < 10 ^ Z.of_nat k ->
    count_digits (list_ascii_of_string (pretty_N_go x s)) <=
      Z.of_nat k + count_digits (list_ascii_of_string s).
Proof.
  induction k as [| k IH]; intros x s Hx.
  { assert (x = 0%N) as -> by (change (10 ^ Z.of_nat 0) with 1 in Hx; lia).
    rewrite pretty_N_go_0. lia. }
  destruct (N.eq_dec x 0%N) as [-> | Hpos].
  { rewrite pretty_N_go_0. lia. }
  rewrite pretty_N_go_step by lia.
  assert (Hdiv : Z.of_N (x `div` 10)%N < 10 ^ Z.of_nat k).
  { rewrite N2Z.inj_div. apply Z.div_lt_upper_bound; [lia |].
    rewrite Nat2Z.inj_succ, Z.pow_succ_r in Hx by lia. exact Hx. }
  pose proof (IH (x `div` 10)%N
                (String (pretty_N_char (x `mod` 10)) s) Hdiv) as Hrec.
  cbn [list_ascii_of_string] in Hrec. rewrite count_digits_cons in Hrec.
  rewrite digit_of_pretty_char in Hrec by (apply N.mod_lt; lia).
  lia.
Qed.

Lemma pretty_go_no_space (x : N) :
  forall s : string,
    Forall (fun c => is_space c = false) (list_ascii_of_string s) ->
    Forall (fun c => is_space c = false)
      (list_ascii_of_string (pretty_N_go x s)).
Proof.
  induction (N.lt_wf_0 x) as [x _ IH]; intros s Hs.
  destruct (N.eq_dec x 0%N) as [-> | Hx]; [rewrite pretty_N_go_0; exact Hs |].
  rewrite pretty_N_go_step by lia.
  apply IH; [apply N.div_lt; lia |].
  cbn [list_ascii_of_string].
  constructor; [apply pretty_char_no_space | exact Hs].
Qed.

(** The digits written for a positive number start with a digit. *)
Lemma pretty_go_head (x : N) (s : string) :
  (0 < x)%N ->
  exists c r d,
    list_ascii_of_string (pretty_N_go x s) = c :: r /\ digit_of c = Some d.
Proof.
  revert s. induction (N.lt_wf_0 x) as [x _ IH]; intros s Hx.
  rewrite pretty_N_go_step by exact Hx.
  destruct (N.eq_dec (x `div` 10)%N 0%N) as [Hq | Hq].
  - rewrite Hq, pretty_N_go_0. cbn [list_ascii_of_string].
    eexists _, _, _. split; [reflexivity |].
    apply digit_of_pretty_char, N.mod_lt. lia.
  - apply IH; [apply N.div_lt; lia | apply N.neq_0_lt_0; exact Hq].
Qed.

Lemma lstrip_no_space (l : list ascii) :
  Forall (fun c => is_space c = false) l -> lstrip l = l.
Proof.
  intros Hl. destruct Hl as [| c l Hc Hl]; [reflexivity |].
  cbn. rewrite Hc. reflexivity.
Qed.

Lemma strip_no_space (l : list ascii) :
  Forall (fun c => is_space c = false) l -> strip l = l.
Proof.
  intros Hl. unfold strip. rewrite (lstrip_no_space l Hl).
  rewrite lstrip_no_space; [apply rev_involutive |].
  apply Forall_rev. exact Hl.
Qed.

(** A literal that starts with a digit has no sign to take off. *)
Lemma unsigned_literal (c : ascii) (r : list ascii) (d : Z) :
  digit_of c = Some d ->
  match c :: r with
  | "+"%char :: r' => literal_value r'
  | "-"%char :: r' => Z.opp <$> literal_value r'
  | l => literal_value l
  end = literal_value (c :: r).
Proof.
  intros Hd.
  destruct c as [[] [] [] [] [] [] [] []];
    try reflexivity; vm_compute in Hd; discriminate Hd.
Qed.

Lemma literal_value_pretty (x : N) :
  (0 < x)%N -> Z.of_N x < 10 ^ max_str_digits ->
  literal_value (list_ascii_of_string (pretty_N_go x "")) = Some (Z.of_N x).
Proof.
  intros Hx Hbound. unfold literal_value.
  pose proof (count_digits_pretty 4300 x "" Hbound) as Hcount.
  change (count_digits (list_ascii_of_string "")) with 0 in Hcount.
  change (Z.of_nat 4300) with max_str_digits in Hcount.
  destruct (Z.ltb_spec max_str_digits
              (count_digits (list_ascii_of_string (pretty_N_go x ""))));
    [lia |].
  rewrite digits_value_pretty by exact Hx. reflexivity.
Qed.

Lemma int_of_str_pretty_N (x : N) :
  (0 < x)%N -> Z.of_N x < 10 ^ max_str_digits ->
  int_of_str (pretty_N_go x "") = Some (Z.of_N x).
Proof.
  intros Hx Hbound. unfold int_of_str.
  rewrite strip_no_space by (apply pretty_go_no_space; constructor).
  destruct (pretty_go_head x "" Hx) as (c & r & d & Hl & Hd).
  rewrite Hl, (unsigned_literal c r d Hd), <- Hl.
  apply literal_value_pretty; assumption.
Qed.

(** [int(str(b)) == b], as far as [str(b)] goes. *)
Lemma int_of_str_pretty (b : Z) :
  - 10 ^ max_str_digits < b < 10 ^ max_str_digits ->
  int_of_str (pretty b) = Some b.
Proof.
  intros Hb. destruct b as [| p | p]; [reflexivity | |].
  - apply (int_of_str_pretty_N (N.pos p)); lia.
  - unfold pretty, pretty_Z.
    change (pretty p) with (pretty_N_go (N.pos p) "").
    unfold int_of_str.
    change (list_ascii_of_string ("-" +:+ pretty_N_go (N.pos p) ""))
      with ("-"%char :: list_ascii_of_string (pretty_N_go (N.pos p) "")).
    rewrite strip_no_space
      by (constructor; [reflexivity | apply pretty_go_no_space; constructor]).
    rewrite literal_value_pretty by lia. reflexivity.
Qed.

End Decimal.


(** X10.  An integer and its decimal string are formatted alike: whenever
    [str(b)] is defined (up to 4300 digits), [int] reads it back as [b], and
    [convert_bytes] gives the same outcome for the string as for the
    integer. *)
Theorem convert_bytes_decimal_string (b : Z) (digits : string) :
  str_ b = inr digits ->
  int_ (VStr digits) = inr b /\
  convert_bytes (VStr digits) = convert_bytes (VInt b).
Proof.
  unfold str_.
  destruct (Z.leb_spec (10 ^ max_str_digits) (Z.abs b)) as [Hbig | Hb];
    [discriminate |].
  intros [= <-].
  assert (Hint : int_ (VStr (pretty b)) = inr b).
  { cbn [int_]. rewrite int_of_str_pretty by lia. reflexivity. }
  split; [exact Hint |]. apply convert_bytes_of_int. exact Hint.
Qed.

Lemma convert_bytes_decimal_string_witness :
  int_ (VStr "1536") = inr 1536 /\
  convert_bytes (VStr "1536") = convert_bytes (VInt 1536).
Proof.
  apply (convert_bytes_decimal_string 1536 "1536").
  vm_compute. reflexivity.
Defined.

(** ** More on transfers *)

Section TransfersMore.

Implicit Types (w : World) (chunks : list (exn + chunk)) (pre : list chunk).

Lemma delivered_done pre (c : chunk) chunks :
  Forall (fun c => done c = false) pre -> done c = true ->
  delivered ((inr <$> pre) ++ inr c :: chunks) = (pre ++ [c], None).
Proof.
  intros Hpre Hc. induction Hpre as [| c' pre Hc' Hpre IH].
  - cbn. rewrite Hc. reflexivity.
  - cbn [fmap list_fmap app delivered]. rewrite Hc'.
    cbn [fmap list_fmap] in IH. rewrite IH. reflexivity.
Qed.

Lemma delivered_raise pre (e : exn) chunks :
  Forall (fun c => done c = false) pre ->
  delivered ((inr <$> pre) ++ inl e :: chunks) = (pre, Some e).
Proof.
  intros Hpre. induction Hpre as [| c' pre Hc' Hpre IH].
  - reflexivity.
  - cbn [fmap list_fmap app delivered]. rewrite Hc'.
    cbn [fmap list_fmap] in IH. rewrite IH. reflexivity.
Qed.

(** A download that starts: what it returns and what it leaves. *)
Lemma download_pdf_started (file_id path : string) w chunks :
  media_outcome (env w) file_id = inr chunks ->
  open_error (env w) path = None ->
  let w' := (download_pdf file_id path w).2 in
  (download_pdf file_id path w).1 = inr VNone /\
  disk w' !! path = Some (chunk_bytes (delivered chunks).1) /\
  (forall other, other <> path -> disk w' !! other = disk w !! other) /\
  progress_seen w' = progress_seen w ++ (percent <$> (delivered chunks).1) /\
  delete_calls w' = delete_calls w /\
  list_calls w' = list_calls w.
Proof.
  intros Hmedia Hopen.
  unfold download_pdf, try_except, bind, files_get_media, FileIO_wb.
  rewrite Hmedia, Hopen.
  set (w0 := with_disk _ w).
  destruct (download_loop_run chunks path w0 "")
    as (Hres & Hdisk & Hother & Hseen & Hdel & Hlist);
    [apply lookup_insert_eq |].
  assert (Hframe : forall other, other <> path ->
            disk (download_loop chunks path w0).2 !! other = disk w !! other).
  { intros other Hne. rewrite (Hother other Hne). subst w0. cbn.
    apply lookup_insert_ne. congruence. }
  destruct (download_loop chunks path w0) as [[e | []] w1];
    cbn [fst snd] in *; repeat split; auto.
Qed.

(** Whatever happens, a download sends no delete request and leaves every
    local file that it could not open for writing as it was. *)
Lemma download_pdf_frame (file_id path : string) w :
  let w' := (download_pdf file_id path w).2 in
  (download_pdf file_id path w).1 = inr VNone /\
  delete_calls w' = delete_calls w /\
  list_calls w' = list_calls w /\
  (forall other, other <> path -> disk w' !! other = disk w !! other).
Proof.
  destruct (media_outcome (env w) file_id) as [e | chunks] eqn:Hmedia.
  { rewrite download_pdf_not_started by eauto. auto. }
  destruct (open_error (env w) path) as [e |] eqn:Hopen.
  { rewrite download_pdf_not_started by eauto. auto. }
  destruct (download_pdf_started file_id path w chunks Hmedia Hopen)
    as (Hres & _ & Hother & _ & Hdel & Hlist).
  auto.
Qed.

(** The enumerations send list requests only. *)
Lemma fetch_pages_frame (fuel : nat) :
  forall page_token acc w,
    let w' := (fetch_pages fuel page_token acc w).2 in
    delete_calls w' = delete_calls w /\ disk w' = disk w /\
    progress_seen w' = progress_seen w /\ env w' = env w.
Proof.
  induction fuel as [| fuel IH]; intros tok acc w; [cbn; auto |].
  cbn [fetch_pages]. unfold bind, files_list.
  destruct (list_script w) as [| [e | p] script]; [cbn; auto .. |].
  destruct (negb (truthy (nextPageToken p))); [cbn; auto |].
  exact (IH _ _ (with_list script (list_calls w ++ [tok]) w)).
Qed.

Lemma list_files_loop_frame (fuel : nat) :
  forall page_token acc w,
    let w' := (list_files_loop fuel page_token acc w).2 in
    delete_calls w' = delete_calls w /\ disk w' = disk w /\
    progress_seen w' = progress_seen w /\ env w' = env w.
Proof.
  induction fuel as [| fuel IH]; intros tok acc w; [cbn; auto |].
  cbn [list_files_loop]. unfold bind, files_list.
  destruct (list_script w) as [| [e | p] script]; [cbn; auto .. |].
  destruct (default [] (files p)); [cbn; auto |].
  destruct (negb (truthy (nextPageToken p))); [cbn; auto |].
  exact (IH _ _ (with_list script (list_calls w ++ [tok]) w)).
Qed.

Lemma list_files_frame w :
  let w' := (list_files w).2 in
  (exists l, (list_files w).1 = inr l) /\
  delete_calls w' = delete_calls w /\ disk w' = disk w /\
  progress_seen w' = progress_seen w /\ env w' = env w.
Proof.
  pose proof (list_files_loop_frame (while_fuel w) None [] w) as Hframe.
  unfold list_files, try_except.
  destruct (list_files_loop (while_fuel w) None [] w) as [[e | l] w1];
    cbn [fst snd] in *; split; eauto.
Qed.

Lemma remove_duplicate_files_frame w :
  let w' := (remove_duplicate_files w).2 in
  (remove_duplicate_files w).1 = inr VNone /\
  disk w' = disk w /\ progress_seen w' = progress_seen w /\ env w' = env w.
Proof.
  pose proof (fetch_pages_frame (while_fuel w) None [] w) as Hframe.
  rewrite remove_duplicate_files_run.
  destruct (fetch_pages (while_fuel w) None [] w) as [[e | catalog] w1];
    cbn [fst snd with_delete_calls disk progress_seen env] in *; tauto.
Qed.

(** A loop whose body never raises never raises. *)
Lemma for_each_returns {A : Type} (body : A -> M unit) (l : list A) :
  (forall x w, (body x w).1 = inr tt) ->
  forall w, (for_each l body w).1 = inr tt.
Proof.
  intros Hbody. induction l as [| x l IH]; intros w; [reflexivity |].
  cbn [for_each]. unfold bind. specialize (Hbody x w).
  destruct (body x w) as [[e | []] w1]; cbn [fst] in Hbody;
    [discriminate Hbody | apply IH].
Qed.

(** A loop keeps what each pass of its body keeps. *)
Lemma for_each_keeps {A B : Type} (body : A -> M unit) (l : list A)
    (observe : World -> B) :
  (forall x w, observe (body x w).2 = observe w) ->
  forall w, observe (for_each l body w).2 = observe w.
Proof.
  intros Hbody. induction l as [| x l IH]; intros w; [reflexivity |].
  cbn [for_each]. unfold bind. specialize (Hbody x w).
  destruct (body x w) as [[e | []] w1]; cbn [snd] in Hbody |- *;
    [exact Hbody | rewrite IH; exact Hbody].
Qed.

End TransfersMore.

(** X11.  A download whose chunks arrive until one is reported done: the
    destination holds the bytes of these chunks and nothing of what it held
    before, one progress line was written per chunk, in order, no later
    chunk was asked for, and no other local file was touched. *)
Theorem download_pdf_complete (file_id path : string) (w : World)
    (pre : list chunk) (c : chunk) (later : list (exn + chunk)) :
  media_outcome (env w) file_id = inr ((inr <$> pre) ++ inr c :: later) ->
  Forall (fun c => done c = false) pre -> done c = true ->
  open_error (env w) path = None ->
  let w' := (download_pdf file_id path w).2 in
  (download_pdf file_id path w).1 = inr VNone /\
  disk w' !! path = Some (chunk_bytes (pre ++ [c])) /\
  progress_seen w' = progress_seen w ++ (percent <$> pre ++ [c]) /\
  (forall other, other <> path -> disk w' !! other = disk w !! other).
Proof.
  intros Hmedia Hpre Hc Hopen.
  destruct (download_pdf_started file_id path w _ Hmedia Hopen)
    as (Hres & Hdisk & Hother & Hseen & _).
  rewrite (delivered_done pre c later Hpre Hc) in Hdisk, Hseen.
  auto.
Qed.

Lemma download_pdf_complete_witness :
  let w := Sample.world_with_file Sample.env_ok "out.pdf" "old content" in
  disk (download_pdf "any" "out.pdf" w).2 !! "out.pdf" =
    Some "%PDF-1.7%EOF".
Proof.
  intros w.
  apply (download_pdf_complete "any" "out.pdf" w
           [Chunk "%PDF" 33 false; Chunk "-1.7" 66 false]
           (Chunk "%EOF" 100 true) []).
  - reflexivity.
  - repeat constructor.
  - reflexivity.
  - reflexivity.
Defined.

(** X12.  A download that fails while chunks arrive returns [None] and
    leaves at the destination the chunks written so far: the file that was
    there before is gone, and when the first chunk fails the destination is
    left empty. *)
Theorem download_pdf_interrupted (file_id path : string) (w : World)
    (pre : list chunk) (e : exn) (later : list (exn + chunk)) :
  media_outcome (env w) file_id = inr ((inr <$> pre) ++ inl e :: later) ->
  Forall (fun c => done c = false) pre ->
  open_error (env w) path = None ->
  let w' := (download_pdf file_id path w).2 in
  (download_pdf file_id path w).1 = inr VNone /\
  disk w' !! path = Some (chunk_bytes pre) /\
  (pre = [] -> disk w' !! path = Some "") /\
  progress_seen w' = progress_seen w ++ (percent <$> pre).
Proof.
  intros Hmedia Hpre Hopen.
  destruct (download_pdf_started file_id path w _ Hmedia Hopen)
    as (Hres & Hdisk & _ & Hseen & _).
  rewrite (delivered_raise pre e later Hpre) in Hdisk, Hseen.
  repeat split; auto. intros ->. exact Hdisk.
Qed.

Lemma download_pdf_interrupted_witness :
  let w := Sample.world_with_file Sample.env_ok "out.pdf" "old content" in
  disk (download_pdf "broken" "out.pdf" w).2 !! "out.pdf" = Some "%PDF".
Proof.
  intros w.
  apply (download_pdf_interrupted "broken" "out.pdf" w
           [Chunk "%PDF" 33 false] TimeoutError []).
  - reflexivity.
  - repeat constructor.
  - reflexivity.
Defined.

(** X13.  A download that cannot start changes nothing: when the media
    request cannot be built, or when the destination cannot be opened for
    writing, [download_pdf] returns [None], no file is created or truncated,
    and no progress line is written. *)
Theorem download_pdf_cannot_start (file_id path : string) (w : World) :
  (exists e, media_outcome (env w) file_id = inl e) \/
  (exists e, open_error (env w) path = Some e) ->
  download_pdf file_id path w = (inr VNone, w).
Proof. apply download_pdf_not_started. Qed.

Lemma download_pdf_cannot_start_witness :
  let w := Sample.world_with_file Sample.env_locked "out.pdf" "old content" in
  download_pdf "any" "out.pdf" w = (inr VNone, w) /\
  disk w !! "out.pdf" = Some "old content".
Proof.
  intros w. split; [| reflexivity].
  apply download_pdf_cannot_start. right. exists OSError. reflexivity.
Defined.

(** X14.  [upload_pdf] returns an id exactly when the local file can be read
    and the store answers the create request for its bytes, under the name
    asked for, with that id; in every other case it returns [None].  It
    changes nothing locally. *)
Theorem upload_pdf_id (path name : string) (w : World) :
  (forall i, (upload_pdf path name w).1 = inr (VStr i) <->
     exists bytes, disk w !! path = Some bytes /\
                   create_outcome (env w) name bytes = inr (Some i)) /\
  ((forall i, (upload_pdf path name w).1 <> inr (VStr i)) ->
   (upload_pdf path name w).1 = inr VNone) /\
  (upload_pdf path name w).2 = w.
Proof.
  rewrite upload_pdf_run. cbn [fst snd].
  split; [| split; [| reflexivity]].
  - intros i. split.
    + destruct (disk w !! path) as [bytes |]; [| discriminate].
      destruct (create_outcome (env w) name bytes) as [e | [i' |]] eqn:Hc;
        try discriminate.
      intros [= ->]. eauto.
    + intros (bytes & -> & ->). reflexivity.
  - intros Hno.
    destruct (disk w !! path) as [bytes |]; [| reflexivity].
    destruct (create_outcome (env w) name bytes) as [e | [i' |]];
      try reflexivity.
    destruct (Hno i'). reflexivity.
Qed.

(** X15.  Which method sends which requests.  [list_files] never sends a
    delete request; [download_pdf] sends neither a list nor a delete
    request; [delete_file] sends a delete request for the id it is given,
    no other and no list request. *)
Theorem requests_by_method (w : World) :
  delete_calls (list_files w).2 = delete_calls w /\
  (forall file_id path,
     delete_calls (download_pdf file_id path w).2 = delete_calls w /\
     list_calls (download_pdf file_id path w).2 = list_calls w) /\
  (forall file_id,
     delete_calls (delete_file file_id w).2 = delete_calls w ++ [file_id] /\
     list_calls (delete_file file_id w).2 = list_calls w).
Proof.
  split; [| split].
  - destruct (list_files_frame w) as (_ & Hdel & _). exact Hdel.
  - intros file_id path.
    destruct (download_pdf_frame file_id path w) as (_ & Hdel & Hlist & _).
    auto.
  - intros file_id. rewrite delete_file_run. auto.
Qed.

(** ** The script *)

Section ScriptRun.

Variable new_handler : exn + unit.
Variable print_error : pyval -> option exn.
Variable downloads : string -> string.

Lemma uploads_run (l : list (string * string)) (w : World) :
  (forall v, print_error v = None) ->
  for_each l
    (fun pair =>
       do pdf_file_id <- upload_pdf pair.1 pair.2;
       print_ print_error pdf_file_id) w =
    (inr tt, w).
Proof.
  intros Hprint. induction l as [| pair l IH]; [reflexivity |].
  cbn [for_each]. unfold bind at 1 2. rewrite upload_pdf_run.
  unfold print_, lift. rewrite Hprint. exact IH.
Qed.

Lemma downloads_run (l : list file) (w : World) :
  let body := fun file =>
    do _ <- download_pdf (file_id file) (downloads (file_name file)); ret tt in
  (for_each l body w).1 = inr tt /\
  delete_calls (for_each l body w).2 = delete_calls w.
Proof.
  intros body.
  assert (Hbody : forall file w0,
            (body file w0).1 = inr tt /\
            delete_calls (body file w0).2 = delete_calls w0).
  { intros file w0. subst body. unfold bind.
    destruct (download_pdf_frame (file_id file) (downloads (file_name file)) w0)
      as (Hres & Hdel & _).
    destruct (download_pdf _ _ w0) as [[e | v] w1]; cbn [fst snd] in *;
      [discriminate Hres | auto]. }
  split.
  - apply for_each_returns. intros; apply Hbody.
  - apply (for_each_keeps body l delete_calls). intros; apply Hbody.
Qed.

End ScriptRun.

(** X16.  Where the script can fail.  When the construction of the handler
    raises, the script raises the same exception and has sent no request.
    When the handler is made and [get_drive_info] raises, the script raises
    the same exception once its first listing is over, and has sent no
    delete request.  When neither raises and no [print] fails, the
    script runs to its end whatever [list_files], [upload_pdf],
    [remove_duplicate_files] and [download_pdf] meet, and the delete
    requests it has sent are those of its deduplication pass. *)
Theorem main_failures (new_handler : exn + unit)
    (print_error : pyval -> option exn) (downloads : string -> string)
    (w : World) :
  let run := main new_handler print_error downloads in
  let w1 := (list_files w).2 in
  (forall e, new_handler = inl e -> run w = (inl e, w)) /\
  (forall e, new_handler = inr tt -> (get_drive_info w).1 = inl e ->
     run w = (inl e, w1) /\ delete_calls w1 = delete_calls w) /\
  (forall snapshot,
     new_handler = inr tt -> (forall v, print_error v = None) ->
     (get_drive_info w).1 = inr snapshot ->
     (run w).1 = inr tt /\
     delete_calls (run w).2 = delete_calls (remove_duplicate_files w1).2).
Proof.
  intros run w1.
  destruct (list_files_frame w) as ([files Hfiles] & Hdel & Hdisk & Hseen & Henv).
  fold w1 in Hdel, Hdisk, Hseen, Henv.
  assert (Hquota : get_drive_info w1 = ((get_drive_info w).1, w1)).
  { rewrite !get_drive_info_run, Henv. reflexivity. }
  assert (Hstart : forall k : M unit,
            new_handler = inr tt ->
            (do handler <- lift new_handler;
             do files <- list_files; do files_info <- get_drive_info; k) w =
              match (get_drive_info w).1 with
              | inl e => (inl e, w1)
              | inr _ => k w1
              end).
  { intros k ->. unfold bind, lift. subst w1.
    destruct (list_files w) as [[e | l] w0]; cbn [fst snd] in *;
      [discriminate Hfiles |].
    rewrite Hquota. destruct (get_drive_info w).1; reflexivity. }
  split; [| split].
  - intros e ->. reflexivity.
  - intros e Hnew He. subst run. unfold main.
    rewrite (Hstart _ Hnew), He. auto.
  - intros snapshot Hnew Hprint Hs. subst run. unfold main.
    rewrite (Hstart _ Hnew), Hs.
    assert (Hrest : exists l w3,
              (do _ <- for_each pdf_files_to_upload
                         (fun pair =>
                            do pdf_file_id <- upload_pdf pair.1 pair.2;
                            print_ print_error pdf_file_id);
               do _ <- remove_duplicate_files;
               do files <- list_files;
               for_each files
                 (fun file =>
                    do _ <- download_pdf (file_id file)
                              (downloads (file_name file));
                    ret tt)) w1 =
              for_each l
                (fun file =>
                   do _ <- download_pdf (file_id file)
                             (downloads (file_name file));
                   ret tt) w3 /\
              delete_calls w3 = delete_calls (remove_duplicate_files w1).2).
    { unfold bind at 1. rewrite (uploads_run print_error _ _ Hprint).
      unfold bind at 1.
      destruct (remove_duplicate_files_frame w1) as (Hpass & _).
      destruct (remove_duplicate_files w1) as [[e | v] w2]; cbn [fst snd] in *;
        [discriminate Hpass |].
      unfold bind at 1.
      destruct (list_files_frame w2) as ([files' Hfiles'] & Hdel' & _).
      destruct (list_files w2) as [[e | l] w3]; cbn [fst snd] in *;
        [discriminate Hfiles' |].
      exists l, w3. split; [reflexivity | exact Hdel']. }
    destruct Hrest as (l & w3 & Hrest & Hdel').
    destruct (downloads_run downloads l w3) as [Hres Hkeep].
    cbn zeta in Hres, Hkeep.
    split.
    + etransitivity; [| exact Hres]. f_equal. exact Hrest.
    + etransitivity; [| exact Hdel']. etransitivity; [| exact Hkeep].
      f_equal. f_equal. exact Hrest.
Qed.

(** The three cases on the example pages: the log file cannot be opened; the
    quota request times out; every request is served. *)
Lemma main_failures_witness :
  main (inl OSError) (fun _ => None) (fun name => name)
       (Sample.world Sample.env_ok Sample.catalog_pages) =
    (inl OSError, Sample.world Sample.env_ok Sample.catalog_pages) /\
  (main (inr tt) (fun _ => None) (fun name => name)
        (Sample.world Sample.env_timeout Sample.catalog_pages)).1 =
    inl TimeoutError /\
  (main (inr tt) (fun _ => None) (fun name => name)
        (Sample.world Sample.env_ok Sample.catalog_pages)).1 = inr tt.
Proof.
  split; [| split].
  - apply (main_failures (inl OSError) (fun _ => None) (fun name => name)
             (Sample.world Sample.env_ok Sample.catalog_pages)).
    reflexivity.
  - destruct (main_failures (inr tt) (fun _ => None) (fun name => name)
                (Sample.world Sample.env_timeout Sample.catalog_pages))
      as (_ & Hquota & _).
    destruct (Hquota TimeoutError eq_refl eq_refl) as [Hrun _].
    rewrite Hrun. reflexivity.
  - destruct (main_failures (inr tt) (fun _ => None) (fun name => name)
                (Sample.world Sample.env_ok Sample.catalog_pages))
      as (_ & _ & Hend).
    eapply Hend; [reflexivity | reflexivity | vm_compute; reflexivity].
Defined.
